(** * unique_variable_names: the name-similarity engine

    A shallow embedding of [src/unique_variable_names.cpp]:
    [similarityMetric] (rolling two-row LCS-length dynamic program),
    [longestCommonSubstring] (full table plus backward reconstruction into
    the static buffer [lcs]) and [Traversal::processNames] (triangular
    pairwise matching with the length-ratio prune).

    Modelling conventions.
    - A C string is the list of the characters before its terminator
      ([cstring]); [strlen] is [length].  Reading [str[length str]] yields
      the terminator, which is what the default of [!!!] returns.
    - The counters of the source ([unsigned], [int], [size_t]) are
      modelled by [nat]: no counter of the source can exceed the length of
      an argument string (or of the name vector), and these are assumed to
      be below 2^31, the range the source's [int] casts presuppose.
    - [calloc]ed arrays are lists of zeros updated in place with stdpp's
      [<[i:=x]>]; every access of the source is in range (proved for the
      cells the results depend on).
    - [float] values are modelled by [fval]: the IEEE special values
      together with the exact rational a finite value stands for.
      Rounding is not modelled; division by zero, infinities and NaN
      comparisons are. *)

From Stdlib Require Import QArith Qreduction Qfield Lqa Ascii String Sorted.
From stdpp Require Import base tactics option list numbers.

Local Open Scope nat_scope.

(** ** C strings *)

Definition cstring := list ascii.

Definition cstr (s : string) : cstring := list_ascii_of_string s.

#[global] Instance ascii_inhabited : Inhabited ascii := populate Ascii.zero.

(** ** Floating-point values without rounding *)

Inductive fval : Type :=
  | FNaN
  | FInf (negative : bool)
  | Fin (q : Q).

(** The literals [0.0] and [1.0]. *)
Definition f0 : fval := Fin 0.
Definition f1 : fval := Fin 1.

(** [(float) n] for an unsigned integer [n]. *)
Definition fof_nat (n : nat) : fval := Fin (inject_Z (Z.of_nat n)).

(** IEEE division.  Finite results are kept in lowest terms so that equal
    values are equal terms. *)
Definition fdiv (x y : fval) : fval :=
  match x, y with
  | FNaN, _ | _, FNaN => FNaN
  | FInf _, FInf _ => FNaN
  | FInf s, Fin q => FInf (xorb s (Qle_bool q 0 && negb (Qeq_bool q 0)))
  | Fin _, FInf _ => Fin 0
  | Fin p, Fin q =>
      if Qeq_bool q 0 then
        if Qeq_bool p 0 then FNaN else FInf (Qle_bool p 0)
      else Fin (Qred (p / q))
  end.

(** IEEE [x < y]: false as soon as one side is NaN. *)
Definition flt (x y : fval) : bool :=
  match x, y with
  | FNaN, _ | _, FNaN => false
  | FInf sx, FInf sy => sx && negb sy
  | FInf sx, Fin _ => sx
  | Fin _, FInf sy => negb sy
  | Fin p, Fin q => match (p ?= q)%Q with Lt => true | _ => false end
  end.

(** IEEE [x > y]. *)
Definition fgt (x y : fval) : bool := flt y x.

(** ** similarityMetric *)

(** One cell of the LCS recurrence, shared by both dynamic programs of the
    source: [diag + 1] on equal characters, otherwise
    [up >= left ? up : left]. *)
Definition lcs_cell (x y : ascii) (diag up left : nat) : nat :=
  if Ascii.eqb x y then diag + 1
  else if left <=? up then up else left.

(** The inner loop [for (k = 1; k <= len1; ++k)] for a fixed [j]. *)
Definition sim_inner (str1 str2 : cstring) (len1 j : nat)
    (previous next : list nat) : list nat :=
  foldl (fun next k =>
           <[k := lcs_cell (str1 !!! (k - 1)) (str2 !!! j)
                    (previous !!! (k - 1)) (previous !!! k) (next !!! (k - 1))]>
             next)
        next (seq 1 len1).

(** The outer loop [for (j = 0; j < len2; ++j)], ending each round with
    [swap(&previous, &next)]. *)
Definition sim_outer (str1 str2 : cstring) (len1 len2 : nat)
    (previous next : list nat) : list nat * list nat :=
  foldl (fun '(previous, next) j =>
           (sim_inner str1 str2 len1 j previous next, previous))
        (previous, next) (seq 0 len2).

(** [previous[len1]] after both loops, from the two [calloc]ed rows. *)
Definition lenLCS (str1 str2 : cstring) : nat :=
  let len1 := length str1 in
  let len2 := length str2 in
  let previous := replicate (len1 + 1) 0 in
  let next := replicate (len1 + 1) 0 in
  (sim_outer str1 str2 len1 len2 previous next).1 !!! len1.

Definition similarityMetric (strX strY : cstring) : fval :=
  let lenX := length strX in
  let lenY := length strY in
  let str1 := if lenY <? lenX then strX else strY in
  let str2 := if lenY <? lenX then strY else strX in
  let len1 := length str1 in
  let len2 := length str2 in
  if (len1 =? 0) || (len2 =? 0) then f0
  else fdiv (fof_nat (lenLCS str1 str2)) (fof_nat len1).

(** ** longestCommonSubstring *)

Definition MAX_LCS : nat := 256.

(** [align[r][c]] and [align[r][c] = v] on the table of [len2 + 1] rows. *)
Definition tget (align : list (list nat)) (r c : nat) : nat :=
  (align !!! r) !!! c.

Definition tset (align : list (list nat)) (r c v : nat) : list (list nat) :=
  <[r := <[c := v]> (align !!! r)]> align.

(** [for (c = 1; c <= len1; ++c)] of the table construction, row [r]. *)
Definition fill_row (str1 str2 : cstring) (len1 r : nat)
    (align : list (list nat)) : list (list nat) :=
  foldl (fun align c =>
           tset align r c
             (lcs_cell (str1 !!! (c - 1)) (str2 !!! (r - 1))
                (tget align (r - 1) (c - 1)) (tget align (r - 1) c)
                (tget align r (c - 1))))
        align (seq 1 len1).

(** [for (r = 1; r <= len2; ++r)] of the table construction. *)
Definition fill_table (str1 str2 : cstring) (len1 len2 : nat)
    (align : list (list nat)) : list (list nat) :=
  foldl (fun align r => fill_row str1 str2 len1 r align) align (seq 1 len2).

(** The table after both loops, from the [calloc]ed rows. *)
Definition align_table (str1 str2 : cstring) : list (list nat) :=
  let len1 := length str1 in
  let len2 := length str2 in
  fill_table str1 str2 len1 len2 (replicate (len2 + 1) (replicate (len1 + 1) 0)).

(** The loop variables [r], [c], [i] of the reconstruction. *)
Record cursor : Type := Cursor { cur_r : nat; cur_c : nat; cur_i : nat }.

(** Which arm of the loop body runs.  [NoMove] is the fall-through of the
    innermost [if], which changes nothing. *)
Inductive branch : Type := MoveUp | MoveLeft | MoveDiag | NoMove.

(** The loop condition [i > 0 && r > 0 && c > 0]. *)
Definition lcs_cond (s : cursor) : bool :=
  (0 <? cur_i s) && (0 <? cur_r s) && (0 <? cur_c s).

Definition lcs_branch (align : list (list nat)) (s : cursor) : branch :=
  let '(Cursor r c i) := s in
  if tget align (r - 1) c =? i then MoveUp
  else if tget align r (c - 1) =? i then MoveLeft
  else if tget align (r - 1) (c - 1) =? i - 1 then MoveDiag
  else NoMove.

(** The body followed by the increment [i = align[r][c]]. *)
Definition lcs_next (align : list (list nat)) (b : branch) (s : cursor) : cursor :=
  let '(Cursor r c i) := s in
  let '(r', c') :=
    match b with
    | MoveUp => (r - 1, c)
    | MoveLeft => (r, c - 1)
    | MoveDiag => (r - 1, c - 1)
    | NoMove => (r, c)
    end in
  Cursor r' c' (tget align r' c').

(** The iterations of the reconstruction loop from cursor [s], each with
    the cursor it starts from and the arm it takes; [None] when the loop
    is still running after [fuel] iterations. *)
Fixpoint lcs_loop (fuel : nat) (align : list (list nat)) (s : cursor)
    : option (list (cursor * branch)) :=
  if lcs_cond s then
    match fuel with
    | 0 => None
    | S fuel' =>
        let b := lcs_branch align s in
        cons (s, b) <$> lcs_loop fuel' align (lcs_next align b s)
    end
  else Some [].

(** The stores into [lcs] of one iteration: [lcs[i-1] = str2[--r]] in the
    diagonal arm, none otherwise. *)
Definition iter_writes (str2 : cstring) (it : cursor * branch)
    : list (nat * ascii) :=
  match it with
  | (Cursor r c i, MoveDiag) => [(i - 1, str2 !!! (r - 1))]
  | _ => []
  end.

(** All stores into [lcs], in program order: the terminator [lcs[i] = 0]
    of the loop initialisation, then those of the iterations. *)
Definition lcs_writes (str2 : cstring) (i0 : nat)
    (iters : list (cursor * branch)) : list (nat * ascii) :=
  (i0, Ascii.zero) :: flat_map (iter_writes str2) iters.

(** Performing the stores on the buffer: [inl k] is a store at index [k]
    outside the buffer. *)
Fixpoint store_all (buf : list ascii) (ws : list (nat * ascii))
    : nat + list ascii :=
  match ws with
  | [] => inr buf
  | (k, ch) :: ws' =>
      if k <? length buf then store_all (<[k := ch]> buf) ws' else inl k
  end.

(** What a call returns. *)
Inductive lcs_return : Type :=
  | RetNull                        (* [return 0] *)
  | RetLcs (lcs : list ascii)      (* [return lcs], with the buffer's content *)
  | RetOverrun (index : nat)       (* a store past the end of [lcs] *)
  | RetHang.                       (* the loop is still running after the fuel *)

Definition longestCommonSubstring_fuel (fuel : nat) (lcs : list ascii)
    (str1 str2 : cstring) : lcs_return :=
  let len1 := length str1 in
  let len2 := length str2 in
  if (len1 =? 0) || (len2 =? 0) then RetNull
  else
    let align := align_table str1 str2 in
    let i0 := tget align len2 len1 in
    match lcs_loop fuel align (Cursor len2 len1 i0) with
    | None => RetHang
    | Some iters =>
        match store_all lcs (lcs_writes str2 i0 iters) with
        | inl k => RetOverrun k
        | inr lcs' => RetLcs lcs'
        end
    end.

(** [len1 + len2] iterations are enough ([lcs_loop_total] below). *)
Definition longestCommonSubstring (lcs : list ascii) (str1 str2 : cstring)
    : lcs_return :=
  longestCommonSubstring_fuel (length str1 + length str2) lcs str1 str2.

(** The C string a [char*] into the buffer denotes. *)
Fixpoint c_str (buf : list ascii) : cstring :=
  match buf with
  | [] => []
  | ch :: rest => if Ascii.eqb ch Ascii.zero then [] else ch :: c_str rest
  end.

(** The static buffer at program start. *)
Definition lcs_initial : list ascii := replicate MAX_LCS Ascii.zero.

(** ** Traversal::processNames *)

(** [float similarity_threshold = 0.75]. *)
Definition similarity_threshold : fval := Fin (3 # 4).

(** A name and the address of the AST node it was found at (never null:
    the constructor asserts it). *)
Record NameStructure : Type :=
  { name : cstring; associatedNode : N }.

(** The length-ratio bound of a candidate pair, as the source computes
    it: [j_length / i_length], inverted when above [1.0]. *)
Definition greatestPossibleSimilarity (i_length j_length : nat) : fval :=
  let g := fdiv (fof_nat j_length) (fof_nat i_length) in
  if fgt g f1 then fdiv f1 g else g.

(** Why a run stops before its end. *)
Inductive crash : Type :=
  | NullString              (* a [std::string] built from the null pointer *)
  | BufferOverrun (index : nat)
  | Hang.

Inductive run (A : Type) : Type :=
  | Done (a : A)
  | Crash (why : crash).
Arguments Done {A} a.
Arguments Crash {A} why.

(** The vector [results], the static buffer [lcs], and, as a ghost
    record, the index pairs that got past the triangular [continue]. *)
Record pn_state : Type :=
  { results : list (NameStructure * NameStructure);
    considered : list (nat * nat);
    lcs_buf : list ascii }.

(** The body of the inner loop after [++j_index]. *)
Definition pn_body (threshold : fval) (i j : NameStructure)
    (i_index j_index : nat) (st : pn_state) : run pn_state :=
  if j_index <=? i_index then Done st
  else
    let st := {| results := results st;
                 considered := considered st ++ [(i_index, j_index)];
                 lcs_buf := lcs_buf st |} in
    let i_length := length (name i) in
    let j_length := length (name j) in
    if flt (greatestPossibleSimilarity i_length j_length) threshold then Done st
    else
      let similarity := similarityMetric (name i) (name j) in
      if fgt similarity threshold then
        match longestCommonSubstring (lcs_buf st) (name i) (name j) with
        | RetLcs lcs' =>
            Done {| results := results st ++ [(i, j)];
                    considered := considered st;
                    lcs_buf := lcs' |}
        | RetNull => Crash NullString
        | RetOverrun k => Crash (BufferOverrun k)
        | RetHang => Crash Hang
        end
      else Done st.

(** The inner loop over [j], entered with the value of [j_index] before
    the element [js] starts with. *)
Fixpoint pn_inner (threshold : fval) (i : NameStructure) (i_index : nat)
    (js : list NameStructure) (j_index : nat) (st : pn_state) : run pn_state :=
  match js with
  | [] => Done st
  | j :: js' =>
      let j_index := S j_index in
      match pn_body threshold i j i_index j_index st with
      | Done st' => pn_inner threshold i i_index js' j_index st'
      | Crash w => Crash w
      end
  end.

(** The outer loop over [i]; every round restarts [j] at
    [nameList.begin()] with [j_index = 0]. *)
Fixpoint pn_outer (threshold : fval) (nameList todo : list NameStructure)
    (i_index : nat) (st : pn_state) : run pn_state :=
  match todo with
  | [] => Done st
  | i :: todo' =>
      let i_index := S i_index in
      match pn_inner threshold i i_index nameList 0 st with
      | Done st' => pn_outer threshold nameList todo' i_index st'
      | Crash w => Crash w
      end
  end.

(** The matching part of [processNames], up to the printing of
    [results]. *)
Definition processNames (lcs : list ascii) (nameList : list NameStructure)
    (threshold : fval) : run pn_state :=
  pn_outer threshold nameList nameList 0
    {| results := []; considered := []; lcs_buf := lcs |}.

(** ** Longest common subsequences *)

(** [s] is a subsequence of both [a] and [b]. *)
Definition common_subseq (s a b : cstring) : Prop :=
  s `sublist_of` a ∧ s `sublist_of` b.

(** [n] is the length of a longest common subsequence of [a] and [b]. *)
Definition is_lcs_length (a b : cstring) (n : nat) : Prop :=
  (∃ s, common_subseq s a b ∧ length s = n) ∧
  (∀ s, common_subseq s a b → length s ≤ n).

(** The recurrence both dynamic programs implement, as a function of the
    prefix lengths: [r] characters of [str2] against [c] of [str1]. *)
Fixpoint lcs_pre (str1 str2 : cstring) (r c : nat) {struct r} : nat :=
  match r with
  | 0 => 0
  | S r' =>
      (fix row (c : nat) : nat :=
         match c with
         | 0 => 0
         | S c' =>
             lcs_cell (str1 !!! c') (str2 !!! r')
               (lcs_pre str1 str2 r' c') (lcs_pre str1 str2 r' c) (row c')
         end) c
  end.

(** [row] holds line [r] of the recurrence: the state of [previous] after
    [r] rounds of the outer loop of [similarityMetric]. *)
Definition row_is (str1 str2 : cstring) (row : list nat) (r : nat) : Prop :=
  length row = length str1 + 1 ∧
  ∀ k, k ≤ length str1 → row !!! k = lcs_pre str1 str2 r k.

(** [align] has its [calloc]ed shape, holds the recurrence in lines
    [0..R], and its column [0] is still zero. *)
Definition table_is (str1 str2 : cstring) (align : list (list nat)) (R : nat)
    : Prop :=
  length align = length str2 + 1 ∧
  (∀ r, r ≤ length str2 → length (align !!! r) = length str1 + 1) ∧
  (∀ r c, r ≤ R → c ≤ length str1 → tget align r c = lcs_pre str1 str2 r c) ∧
  (∀ r, r ≤ length str2 → tget align r 0 = 0).

(** The cursor is inside the table and [i] is the cell it points at: the
    state the [for] statement establishes and every increment restores. *)
Definition cursor_ok (str1 str2 : cstring) (align : list (list nat))
    (s : cursor) : Prop :=
  cur_r s ≤ length str2 ∧ cur_c s ≤ length str1 ∧
  cur_i s = tget align (cur_r s) (cur_c s).

(** One step up, one step left, or one step up and left. *)
Definition moves_back (s s' : cursor) : Prop :=
  (cur_r s' < cur_r s ∧ cur_c s' = cur_c s) ∨
  (cur_r s' = cur_r s ∧ cur_c s' < cur_c s) ∨
  (cur_r s' < cur_r s ∧ cur_c s' < cur_c s).

(** An iteration that the loop condition admits, that takes one of the
    three moving arms, and that moves the cursor back. *)
Definition good_iteration (align : list (list nat)) (it : cursor * branch)
    : Prop :=
  lcs_cond it.1 = true ∧ it.2 = lcs_branch align it.1 ∧ it.2 ≠ NoMove ∧
  moves_back it.1 (lcs_next align it.2 it.1).

(** [iters] are the consecutive iterations leading from [s] to a cursor
    at which the loop condition fails. *)
Inductive runs_to (align : list (list nat))
    : cursor → list (cursor * branch) → cursor → Prop :=
  | runs_stop s : lcs_cond s = false → runs_to align s [] s
  | runs_step s iters s' :
      lcs_cond s = true →
      runs_to align (lcs_next align (lcs_branch align s) s) iters s' →
      runs_to align s ((s, lcs_branch align s) :: iters) s'.

(** ** The pairs [processNames] visits *)

#[global] Instance NameStructure_inhabited : Inhabited NameStructure :=
  populate {| name := []; associatedNode := 0%N |}.

(** The element the counter value [index] belongs to: the counters are
    incremented on entry to the loop bodies, so they count from 1. *)
Definition nth_name (nameList : list NameStructure) (index : nat)
    : NameStructure :=
  nameList !!! (index - 1).

(** The score of the pair is above the threshold. *)
Definition matching (threshold : fval) (i j : NameStructure) : bool :=
  fgt (similarityMetric (name i) (name j)) threshold.

Definition hit (threshold : fval) (nameList : list NameStructure)
    (p : nat * nat) : bool :=
  matching threshold (nth_name nameList p.1) (nth_name nameList p.2).

Definition pick (nameList : list NameStructure) (p : nat * nat)
    : NameStructure * NameStructure :=
  (nth_name nameList p.1, nth_name nameList p.2).

(** The counter pairs of one round of the outer loop that pass the
    triangular test, in the order of the inner loop. *)
Definition row_pairs (n i_index : nat) : list (nat * nat) :=
  map (pair i_index) (List.filter (λ j_index, i_index <? j_index) (seq 1 n)).

(** All of them, in the order of the outer loop. *)
Definition triangle (n : nat) : list (nat * nat) :=
  flat_map (row_pairs n) (seq 1 n).


(** The reconstruction of a common subsequence of [a] and [b] has a
    string to return and room for it in [lcs]. *)
Definition reconstructible (a b : cstring) : Prop :=
  a ≠ [] ∧ b ≠ [] ∧ ∀ s, common_subseq s a b → length s < MAX_LCS.

(** Every pair that is reported can be reconstructed. *)
Definition safe_pairs (threshold : fval) (nameList : list NameStructure)
    : Prop :=
  ∀ i_index j_index,
    1 ≤ i_index → i_index < j_index → j_index ≤ length nameList →
    hit threshold nameList (i_index, j_index) = true →
    reconstructible (name (nth_name nameList i_index))
                    (name (nth_name nameList j_index)).

(** ** The traversal's visit functions *)

(** What the program reads of an AST node through ROSE's casts and
    [get_name]: for each of the three kinds of declaration the name when
    the node is of that kind, and whether the node is a scope statement.
    ROSE's classes are not part of the repository; the AST is a function
    from addresses to these views, and address 0 is the null pointer, on
    which every cast fails. *)
Record SgNode : Type :=
  { isSgFunctionDeclaration : option cstring;
    isSgInitializedName : option cstring;
    isSgNamespaceDeclarationStatement : option cstring;
    isSgScopeStatement : bool }.

(** [isSgX(n) != NULL] with the name read from the cast node. *)
Definition cast_name (view : SgNode → option cstring) (ast : N → SgNode)
    (n : N) : option cstring :=
  if (n =? 0)%N then None else view (ast n).

(** [nameList.push_back(NameStructureType(name, n))] when the cast
    succeeds. *)
Definition push_named (found : option cstring) (n : N)
    (nameList : list NameStructure) : list NameStructure :=
  match found with
  | Some s => nameList ++ [ {| name := s; associatedNode := n |} ]
  | None => nameList
  end.

(** The three consecutive [if]s of [processNode]. *)
Definition processNode (ast : N → SgNode) (n : N)
    (nameList : list NameStructure) : list NameStructure :=
  let nameList := push_named (cast_name isSgFunctionDeclaration ast n) n nameList in
  let nameList := push_named (cast_name isSgInitializedName ast n) n nameList in
  push_named (cast_name isSgNamespaceDeclarationStatement ast n) n nameList.

(** What a visit leaves behind: the synthesized attribute's [nameList],
    the matches [processNames] found (and prints), the static buffer. *)
Record visit : Type :=
  { nameList_of : list NameStructure;
    reported : list (NameStructure * NameStructure);
    buffer_of : list ascii }.

(** [evaluateSynthesizedAttribute]: the children's lists are
    concatenated in order; a scope statement has the collected names
    matched, any other node has its own name appended. *)
Definition evaluateSynthesizedAttribute (ast : N → SgNode)
    (threshold : fval) (lcs : list ascii) (astNode : N)
    (childAttributes : list (list NameStructure)) : run visit :=
  let result := concat childAttributes in
  if negb (astNode =? 0)%N && isSgScopeStatement (ast astNode) then
    match processNames lcs result threshold with
    | Done st =>
        Done {| nameList_of := result; reported := results st;
                buffer_of := lcs_buf st |}
    | Crash w => Crash w
    end
  else
    Done {| nameList_of := processNode ast astNode result; reported := [];
            buffer_of := lcs |}.

(** [x] stands before [y] in [l]. *)
Definition before_in (l : list NameStructure) (x y : NameStructure) : Prop :=
  ∃ l1 l2 l3, l = l1 ++ x :: l2 ++ y :: l3.

(** ** Array accesses with their bounds *)

(** The same loops once more, with every subscript of the source checked
    against the extent of the array it indexes: [None] is an access
    outside.  A string of length [n] has the [n + 1] cells that end with
    its terminator. *)
Definition rd (a : list nat) (k : nat) : option nat := a !! k.

Definition wr (a : list nat) (k v : nat) : option (list nat) :=
  if k <? length a then Some (<[k := v]> a) else None.

Definition chr (str : cstring) (k : nat) : option ascii :=
  if k <=? length str then Some (str !!! k) else None.

(** A [for] loop over the index values [ks] whose body may fail. *)
Definition for_each {S : Type} (body : S → nat → option S) (s : S)
    (ks : list nat) : option S :=
  foldl (λ acc k, acc ≫= λ s, body s k) (Some s) ks.

(** The statement under [for (k = 1; k <= len1; ++k)]: only the cells
    the taken arm names are read. *)
Definition sim_step_checked (str1 str2 : cstring) (j : nat)
    (previous next : list nat) (k : nat) : option (list nat) :=
  x ← chr str1 (k - 1);
  y ← chr str2 j;
  if Ascii.eqb x y then
    d ← rd previous (k - 1); wr next k (d + 1)
  else
    u ← rd previous k;
    l ← rd next (k - 1);
    wr next k (if l <=? u then u else l).

Definition sim_inner_checked (str1 str2 : cstring) (len1 j : nat)
    (previous next : list nat) : option (list nat) :=
  for_each (sim_step_checked str1 str2 j previous) next (seq 1 len1).

Definition sim_outer_checked (str1 str2 : cstring) (len1 len2 : nat)
    (previous next : list nat) : option (list nat * list nat) :=
  for_each (λ '(previous, next) j,
              next' ← sim_inner_checked str1 str2 len1 j previous next;
              Some (next', previous))
           (previous, next) (seq 0 len2).

Definition similarityMetric_checked (strX strY : cstring) : option fval :=
  let lenX := length strX in
  let lenY := length strY in
  let str1 := if lenY <? lenX then strX else strY in
  let str2 := if lenY <? lenX then strY else strX in
  let len1 := length str1 in
  let len2 := length str2 in
  if (len1 =? 0) || (len2 =? 0) then Some f0
  else
    rows ← sim_outer_checked str1 str2 len1 len2
              (replicate (len1 + 1) 0) (replicate (len1 + 1) 0);
    lenLCS ← rd rows.1 len1;
    Some (fdiv (fof_nat lenLCS) (fof_nat len1)).

(** [align[r][c]] and [align[r][c] = v] with both subscripts checked. *)
Definition tget_checked (align : list (list nat)) (r c : nat) : option nat :=
  row ← align !! r; row !! c.

Definition tset_checked (align : list (list nat)) (r c v : nat)
    : option (list (list nat)) :=
  row ← align !! r;
  if c <? length row then Some (<[r := <[c := v]> row]> align) else None.

Definition fill_step_checked (str1 str2 : cstring) (r : nat)
    (align : list (list nat)) (c : nat) : option (list (list nat)) :=
  x ← chr str1 (c - 1);
  y ← chr str2 (r - 1);
  if Ascii.eqb x y then
    d ← tget_checked align (r - 1) (c - 1); tset_checked align r c (d + 1)
  else
    u ← tget_checked align (r - 1) c;
    l ← tget_checked align r (c - 1);
    tset_checked align r c (if l <=? u then u else l).

Definition fill_table_checked (str1 str2 : cstring) (len1 len2 : nat)
    (align : list (list nat)) : option (list (list nat)) :=
  for_each (λ align r,
              for_each (fill_step_checked str1 str2 r) align (seq 1 len1))
           align (seq 1 len2).

(** One iteration of the reconstruction loop together with the
    increment [i = align[r][c]]: the arm taken, the next cursor. *)
Definition lcs_iter_checked (str2 : cstring) (align : list (list nat))
    (s : cursor) : option (branch * cursor) :=
  let '(Cursor r c i) := s in
  up ← tget_checked align (r - 1) c;
  if up =? i then
    i' ← tget_checked align (r - 1) c; Some (MoveUp, Cursor (r - 1) c i')
  else
    left ← tget_checked align r (c - 1);
    if left =? i then
      i' ← tget_checked align r (c - 1); Some (MoveLeft, Cursor r (c - 1) i')
    else
      diag ← tget_checked align (r - 1) (c - 1);
      if diag =? i - 1 then
        _ ← chr str2 (r - 1);
        i' ← tget_checked align (r - 1) (c - 1);
        Some (MoveDiag, Cursor (r - 1) (c - 1) i')
      else
        i' ← tget_checked align r c; Some (NoMove, Cursor r c i').

(** The loop: [Some None] when it is still running after the fuel,
    [None] when it reads outside the table or the string. *)
Fixpoint lcs_loop_checked (fuel : nat) (str2 : cstring)
    (align : list (list nat)) (s : cursor)
    : option (option (list (cursor * branch))) :=
  if lcs_cond s then
    match fuel with
    | 0 => Some None
    | S fuel' =>
        '(b, s') ← lcs_iter_checked str2 align s;
        rest ← lcs_loop_checked fuel' str2 align s';
        Some (fmap (M := option) (cons (s, b)) rest)
    end
  else Some (Some []).

(** The shape [calloc] gives the table and every store keeps. *)
Definition table_shape (str1 str2 : cstring) (align : list (list nat)) : Prop :=
  length align = length str2 + 1 ∧
  ∀ r, r ≤ length str2 → length (align !!! r) = length str1 + 1.

(** ** Sample inputs *)

(** An identifier of 256 characters, and a scope declaring it twice. *)
Definition long_name : cstring := replicate MAX_LCS "a"%char.


(** The scope of the specification's third scenario. *)
Definition count_scope : list NameStructure :=
  [ {| name := cstr "count"; associatedNode := 1%N |};
    {| name := cstr "countt"; associatedNode := 2%N |};
    {| name := cstr "total"; associatedNode := 3%N |} ].

(** A name declared in a scope and again in a nested one. *)
Definition shadow_scope : list NameStructure :=
  [ {| name := cstr "total"; associatedNode := 1%N |};
    {| name := cstr "n"; associatedNode := 2%N |};
    {| name := cstr "total"; associatedNode := 3%N |} ].

(** A small AST: the nodes 1 to 3 are the declarations of
    [count_scope] (a function and two variables), 10 and 11 are scope
    statements, every other address is a node of no interest. *)
Definition sample_ast (n : N) : SgNode :=
  let plain := {| isSgFunctionDeclaration := None;
                  isSgInitializedName := None;
                  isSgNamespaceDeclarationStatement := None;
                  isSgScopeStatement := false |} in
  match n with
  | 1%N => {| isSgFunctionDeclaration := Some (cstr "count");
              isSgInitializedName := None;
              isSgNamespaceDeclarationStatement := None;
              isSgScopeStatement := false |}
  | 2%N => {| isSgFunctionDeclaration := None;
              isSgInitializedName := Some (cstr "countt");
              isSgNamespaceDeclarationStatement := None;
              isSgScopeStatement := false |}
  | 3%N => {| isSgFunctionDeclaration := None;
              isSgInitializedName := Some (cstr "total");
              isSgNamespaceDeclarationStatement := None;
              isSgScopeStatement := false |}
  | 10%N | 11%N => {| isSgFunctionDeclaration := None;
                      isSgInitializedName := None;
                      isSgNamespaceDeclarationStatement := None;
                      isSgScopeStatement := true |}
  | _ => plain
  end.

(** The lists three declaration nodes under one scope hand upwards. *)
Definition sample_children : list (list NameStructure) :=
  [ [ {| name := cstr "count"; associatedNode := 1%N |} ];
    [ {| name := cstr "countt"; associatedNode := 2%N |};
      {| name := cstr "total"; associatedNode := 3%N |} ] ].

(** * Proofs *)

#[local] Arguments lcs_pre : simpl never.

Section Subsequences.

Implicit Types a b s : cstring.

Lemma sublist_snoc_inv s a x :
  s `sublist_of` a ++ [x] →
  s `sublist_of` a ∨ ∃ s', s = s' ++ [x] ∧ s' `sublist_of` a.
Proof.
  intros (s1 & s2 & -> & H1 & H2)%sublist_app_r.
  inversion H2 as [| ? ? ? H3 | ? ? ? H3]; subst.
  - apply sublist_nil_r in H3 as ->. right. eauto.
  - apply sublist_nil_r in H3 as ->. left. by rewrite app_nil_r.
Qed.

Lemma is_lcs_length_unique a b n m :
  is_lcs_length a b n → is_lcs_length a b m → n = m.
Proof.
  intros [(s & Hs & <-) Hn] [(u & Hu & <-) Hm].
  apply Hn in Hu. apply Hm in Hs. lia.
Qed.

Lemma is_lcs_length_sym a b n : is_lcs_length a b n → is_lcs_length b a n.
Proof.
  intros [(s & [H1 H2] & <-) Hn]. split.
  - exists s. by repeat split.
  - intros u [? ?]. apply Hn. by split.
Qed.

Lemma is_lcs_length_nil_l b : is_lcs_length [] b 0.
Proof.
  split.
  - exists []. repeat split; apply sublist_nil_l.
  - intros s [->%sublist_nil_r _]. done.
Qed.

Lemma is_lcs_length_nil_r a : is_lcs_length a [] 0.
Proof. apply is_lcs_length_sym, is_lcs_length_nil_l. Qed.

Lemma is_lcs_length_refl a : is_lcs_length a a (length a).
Proof.
  split.
  - exists a. by repeat split.
  - intros s [H _]. by apply sublist_length.
Qed.

Lemma is_lcs_length_le_l a b n : is_lcs_length a b n → n ≤ length a.
Proof. intros [(s & [H _] & <-) _]. by apply sublist_length. Qed.

Lemma is_lcs_length_le_r a b n : is_lcs_length a b n → n ≤ length b.
Proof. intros [(s & [_ H] & <-) _]. by apply sublist_length. Qed.

(** Equal last characters extend a longest common subsequence. *)
Lemma is_lcs_length_snoc_eq a b x n :
  is_lcs_length a b n → is_lcs_length (a ++ [x]) (b ++ [x]) (n + 1).
Proof.
  intros [(s & [H1 H2] & <-) Hn]. split.
  - exists (s ++ [x]). rewrite length_app. simpl.
    repeat split; by apply sublist_app.
  - intros u [Ha Hb].
    apply sublist_snoc_inv in Ha as [Ha | (u' & -> & Ha)].
    + apply sublist_snoc_inv in Hb as [Hb | (u' & -> & Hb)].
      * specialize (Hn u (conj Ha Hb)). lia.
      * rewrite length_app. simpl.
        assert (u' `sublist_of` a).
        { etrans; [|exact Ha]. by apply sublist_inserts_r. }
        specialize (Hn u' (conj H Hb)). lia.
    + apply sublist_app_inv_r in Hb.
      rewrite length_app. simpl.
      specialize (Hn u' (conj Ha Hb)). lia.
Qed.

(** Different last characters: one of them is not used. *)
Lemma is_lcs_length_snoc_ne a b x y up left :
  x ≠ y →
  is_lcs_length (a ++ [x]) b up →
  is_lcs_length a (b ++ [y]) left →
  is_lcs_length (a ++ [x]) (b ++ [y]) (if left <=? up then up else left).
Proof.
  intros Hxy [(u & [Hu1 Hu2] & <-) Hm] [(s & [Hs1 Hs2] & <-) Hn]. split.
  - destruct (Nat.leb_spec (length s) (length u)).
    + exists u. repeat split; [done | by apply sublist_inserts_r].
    + exists s. repeat split; [by apply sublist_inserts_r | done].
  - intros v [Ha Hb].
    assert (length v ≤ length s ∨ length v ≤ length u) as Hv.
    { apply sublist_snoc_inv in Ha as [Ha | (v' & -> & Ha)].
      - left. by apply Hn.
      - apply sublist_snoc_inv in Hb as [Hb | (v'' & Hv & Hb)].
        + right. apply Hm. split; [by apply sublist_app | done].
        + apply app_inj_tail in Hv as [_ ?]. congruence. }
    destruct (Nat.leb_spec (length s) (length u)); lia.
Qed.

End Subsequences.

Section Recurrence.

Variables str1 str2 : cstring.

Lemma lcs_pre_0_l c : lcs_pre str1 str2 0 c = 0.
Proof. done. Qed.

Lemma lcs_pre_0_r r : lcs_pre str1 str2 r 0 = 0.
Proof. by destruct r. Qed.

Lemma lcs_pre_S r c :
  lcs_pre str1 str2 (S r) (S c) =
  lcs_cell (str1 !!! c) (str2 !!! r)
    (lcs_pre str1 str2 r c) (lcs_pre str1 str2 r (S c))
    (lcs_pre str1 str2 (S r) c).
Proof. done. Qed.

(** The recurrence computes the length of a longest common subsequence
    of the two prefixes. *)
Lemma lcs_pre_spec r c :
  r ≤ length str2 → c ≤ length str1 →
  is_lcs_length (take c str1) (take r str2) (lcs_pre str1 str2 r c).
Proof.
  revert c. induction r as [|r IHr]; intros c Hr Hc.
  { rewrite take_0. apply is_lcs_length_nil_r. }
  induction c as [|c IHc].
  { rewrite lcs_pre_0_r, take_0. apply is_lcs_length_nil_l. }
  rewrite lcs_pre_S.
  destruct (lookup_lt_is_Some_2 str1 c) as [x Hx]; [lia|].
  destruct (lookup_lt_is_Some_2 str2 r) as [y Hy]; [lia|].
  rewrite (take_S_r _ _ _ Hx), (take_S_r _ _ _ Hy).
  rewrite (list_lookup_total_correct _ _ _ Hx).
  rewrite (list_lookup_total_correct _ _ _ Hy).
  unfold lcs_cell. destruct (Ascii.eqb_spec x y) as [->|Hne].
  - apply is_lcs_length_snoc_eq, IHr; lia.
  - apply is_lcs_length_snoc_ne; [done| |].
    + rewrite <-(take_S_r _ _ _ Hx). apply IHr; lia.
    + rewrite <-(take_S_r _ _ _ Hy). apply IHc. lia.
Qed.

Lemma lcs_pre_full :
  is_lcs_length str1 str2 (lcs_pre str1 str2 (length str2) (length str1)).
Proof.
  pose proof (lcs_pre_spec (length str2) (length str1)) as H.
  rewrite !firstn_all in H. by apply H.
Qed.

End Recurrence.

Section Rolling.

Variables str1 str2 : cstring.

Lemma row_is_calloc : row_is str1 str2 (replicate (length str1 + 1) 0) 0.
Proof.
  split; [apply length_replicate|].
  intros k Hk. rewrite lookup_total_replicate_2 by lia. done.
Qed.

(** [n] iterations of the inner loop fill [next[1..n]] with line
    [j + 1]; whatever [next] held there before is overwritten before
    it is read. *)
Lemma sim_inner_spec j n previous next :
  n ≤ length str1 →
  row_is str1 str2 previous j →
  length next = length str1 + 1 →
  next !!! 0 = 0 →
  length (sim_inner str1 str2 n j previous next) = length str1 + 1 ∧
  sim_inner str1 str2 n j previous next !!! 0 = 0 ∧
  ∀ k, k ≤ n →
    sim_inner str1 str2 n j previous next !!! k = lcs_pre str1 str2 (S j) k.
Proof.
  intros Hn [Hlen Hprev] Hnext H0. induction n as [|n IH].
  { repeat split; try done. intros k Hk. replace k with 0 by lia.
    by rewrite lcs_pre_0_r. }
  destruct IH as (IHlen & IH0 & IH); [lia|].
  unfold sim_inner in *. rewrite seq_S, foldl_snoc.
  change (1 + n) with (S n). replace (S n - 1) with n by lia.
  set (row := foldl _ next (seq 1 n)) in *.
  repeat split.
  - by rewrite length_insert.
  - by rewrite list_lookup_total_insert_ne.
  - intros k Hk. destruct (decide (k = S n)) as [->|Hne].
    + rewrite list_lookup_total_insert_eq by lia.
      rewrite lcs_pre_S, !Hprev, IH by lia. done.
    + rewrite list_lookup_total_insert_ne by done. apply IH. lia.
Qed.

(** After [n] rounds of the outer loop [previous] holds line [n]. *)
Lemma sim_outer_spec n previous next :
  row_is str1 str2 previous 0 →
  length next = length str1 + 1 →
  next !!! 0 = 0 →
  row_is str1 str2 (sim_outer str1 str2 (length str1) n previous next).1 n ∧
  length (sim_outer str1 str2 (length str1) n previous next).2
    = length str1 + 1 ∧
  (sim_outer str1 str2 (length str1) n previous next).2 !!! 0 = 0.
Proof.
  intros Hprev Hnext H0. induction n as [|n IH]; [done|].
  unfold sim_outer in *. rewrite seq_S, foldl_snoc. simpl.
  destruct (foldl _ (previous, next) (seq 0 n)) as [p q]. simpl in *.
  destruct IH as (Hp & Hq & Hq0).
  destruct (sim_inner_spec n (length str1) p q) as (Hl & _ & Hrow);
    [done..|].
  repeat split; try done.
  - apply Hp.
  - destruct Hp as [_ Hp]. rewrite Hp, lcs_pre_0_r by lia. done.
Qed.

Lemma lenLCS_pre :
  lenLCS str1 str2 = lcs_pre str1 str2 (length str2) (length str1).
Proof.
  unfold lenLCS.
  destruct (sim_outer_spec (length str2)
              (replicate (length str1 + 1) 0) (replicate (length str1 + 1) 0))
    as ([_ H] & _).
  - apply row_is_calloc.
  - apply length_replicate.
  - by rewrite lookup_total_replicate_2 by lia.
  - by apply H.
Qed.

(** The rolling dynamic program returns the length of a longest common
    subsequence of its two arguments. *)
Lemma lenLCS_spec : is_lcs_length str1 str2 (lenLCS str1 str2).
Proof. rewrite lenLCS_pre. apply lcs_pre_full. Qed.

End Rolling.

Section Floats.

Lemma Qeq_bool_false x y : ¬ (x == y)%Q → Qeq_bool x y = false.
Proof.
  intros H. destruct (Qeq_bool x y) eqn:E; [|done].
  by apply Qeq_bool_iff in E.
Qed.

Lemma Qeq_bool_of_nat n : Qeq_bool (inject_Z (Z.of_nat n)) 0 = (n =? 0).
Proof.
  destruct n as [|n]; [done|].
  apply Qeq_bool_false. intros H. unfold Qeq in H. simpl in H. lia.
Qed.

Lemma Qle_bool_of_nat_pos n :
  0 < n → Qle_bool (inject_Z (Z.of_nat n)) 0 = false.
Proof.
  intros Hn. destruct (Qle_bool _ _) eqn:H; [|done].
  apply Qle_bool_iff in H. unfold Qle in H. simpl in H. lia.
Qed.

(** Dividing two converted counters, the divisor not being zero. *)
Lemma fdiv_of_nat n m :
  0 < m →
  fdiv (fof_nat n) (fof_nat m)
  = Fin (Qred (inject_Z (Z.of_nat n) / inject_Z (Z.of_nat m))).
Proof.
  intros Hm. unfold fdiv, fof_nat. rewrite Qeq_bool_of_nat.
  by destruct (Nat.eqb_spec m 0); [lia|].
Qed.

Lemma fdiv_of_nat_zero n :
  0 < n → fdiv (fof_nat n) (fof_nat 0) = FInf false.
Proof.
  intros Hn. unfold fdiv, fof_nat.
  rewrite !Qeq_bool_of_nat, Qle_bool_of_nat_pos by done.
  by destruct (Nat.eqb_spec n 0); [lia|].
Qed.

Lemma fdiv_of_nat_same n : 0 < n → fdiv (fof_nat n) (fof_nat n) = f1.
Proof.
  intros Hn. rewrite fdiv_of_nat by done. unfold f1. f_equal.
  change 1%Q with (Qred 1). apply Qred_complete.
  apply Qmult_inv_r. intros H. unfold Qeq in H. simpl in H. lia.
Qed.

(** [<] and [>] exclude each other, and [<] is transitive over [<=] on
    finite values. *)
Lemma flt_fgt_false x y : flt x y = true → fgt x y = false.
Proof.
  unfold fgt. destruct x as [|sx|p], y as [|sy|q]; simpl; try done.
  - by destruct sx, sy.
  - by destruct sx.
  - by destruct sy.
  - destruct (p ?= q)%Q eqn:H; try done. intros _.
    rewrite <-Qcompare_antisym, H. done.
Qed.

Lemma flt_Fin_le p q t :
  (p <= q)%Q → flt (Fin q) t = true → fgt (Fin p) t = false.
Proof.
  intros Hpq. unfold fgt. destruct t as [|s|r]; simpl; try done.
  - by destruct s.
  - destruct (q ?= r)%Q eqn:H; try done. intros _.
    apply Qlt_alt in H.
    assert (p < r)%Q as Hpr by (eapply Qle_lt_trans; eauto).
    destruct (r ?= p)%Q eqn:H'; try done.
    apply Qlt_alt in H'. exfalso. eapply Qlt_irrefl, Qlt_trans; eauto.
Qed.

(** The value of the length-ratio bound when it is a quotient at all. *)
Lemma greatestPossibleSimilarity_value i j :
  0 < i `max` j →
  ∃ q, greatestPossibleSimilarity i j = Fin q ∧
       (q == inject_Z (Z.of_nat (i `min` j)) / inject_Z (Z.of_nat (i `max` j)))%Q.
Proof.
  intros Hmax. unfold greatestPossibleSimilarity.
  destruct (decide (i = 0)) as [->|Hi].
  - rewrite Nat.max_0_l in Hmax. rewrite Nat.min_0_l, Nat.max_0_l.
    rewrite fdiv_of_nat_zero by done. simpl.
    exists 0%Q. split; [done|]. unfold Qdiv. by rewrite Qmult_0_l.
  - rewrite (fdiv_of_nat j i) by lia.
    set (x := inject_Z (Z.of_nat i)). set (y := inject_Z (Z.of_nat j)).
    assert (0 < x)%Q as Hx.
    { unfold x, Qlt. simpl. lia. }
    unfold fgt, f1. cbn [flt].
    destruct (1 ?= Qred (y / x))%Q eqn:Hc.
    + apply Qeq_alt in Hc. rewrite Qred_correct in Hc.
      eexists; split; [done|]. rewrite Qred_correct.
      assert (y == x)%Q as Hyx.
      { rewrite <-(Qmult_1_l x), Hc. field. lra. }
      assert (i = j) as ->.
      { unfold x, y, Qeq in Hyx. simpl in Hyx. lia. }
      by rewrite Nat.min_id, Nat.max_id.
    + apply Qlt_alt in Hc. rewrite Qred_correct in Hc.
      assert (x < y)%Q as Hxy.
      { assert (1 * x < y / x * x)%Q as H
          by (apply Qmult_lt_compat_r; done).
        assert (y / x * x == y)%Q as E by (field; lra). lra. }
      assert (i < j) as Hij.
      { unfold x, y, Qlt in Hxy. simpl in Hxy. lia. }
      rewrite Nat.min_l, Nat.max_r by lia.
      unfold fdiv.
      assert (Qeq_bool (Qred (y / x)) 0 = false) as ->.
      { apply Qeq_bool_false. rewrite Qred_correct. intros H.
        rewrite H in Hc. lra. }
      eexists; split; [done|]. rewrite !Qred_correct.
      fold x y. field. split; lra.
    + apply Qgt_alt in Hc. rewrite Qred_correct in Hc.
      assert (y < x)%Q as Hxy.
      { assert (y / x * x < 1 * x)%Q as H
          by (apply Qmult_lt_compat_r; done).
        assert (y / x * x == y)%Q as E by (field; lra). lra. }
      assert (j < i) as Hij.
      { unfold x, y, Qlt in Hxy. simpl in Hxy. lia. }
      rewrite Nat.min_r, Nat.max_l by lia.
      eexists; split; [done|]. by rewrite Qred_correct.
Qed.

End Floats.

Section Similarity.

Implicit Types a b : cstring.

Lemma lenLCS_sym a b : lenLCS a b = lenLCS b a.
Proof.
  eapply is_lcs_length_unique; [apply lenLCS_spec|].
  apply is_lcs_length_sym, lenLCS_spec.
Qed.

Lemma lenLCS_le_min a b : lenLCS a b ≤ length a `min` length b.
Proof.
  pose proof (lenLCS_spec a b) as H.
  pose proof (is_lcs_length_le_l _ _ _ H).
  pose proof (is_lcs_length_le_r _ _ _ H). lia.
Qed.

Lemma similarityMetric_nil_r a : similarityMetric a [] = f0.
Proof.
  unfold similarityMetric. simpl.
  destruct (0 <? length a); simpl; [by rewrite orb_true_r|done].
Qed.

Lemma similarityMetric_nil_l b : similarityMetric [] b = f0.
Proof.
  unfold similarityMetric. simpl.
  destruct (length b <? 0) eqn:E; [|by rewrite orb_true_r].
  apply Nat.ltb_lt in E. lia.
Qed.

(** On non-empty arguments: the rolling program's result over the
    length of the longer argument. *)
Lemma similarityMetric_ratio a b :
  a ≠ [] → b ≠ [] →
  similarityMetric a b
  = fdiv (fof_nat (lenLCS a b)) (fof_nat (length a `max` length b)).
Proof.
  intros Ha Hb.
  assert (0 < length a) by (destruct a; simpl; [done|lia]).
  assert (0 < length b) by (destruct b; simpl; [done|lia]).
  unfold similarityMetric.
  destruct (Nat.ltb_spec (length b) (length a)).
  - destruct (Nat.eqb_spec (length a) 0); [lia|].
    destruct (Nat.eqb_spec (length b) 0); [lia|]. simpl.
    by rewrite Nat.max_l by lia.
  - destruct (Nat.eqb_spec (length a) 0); [lia|].
    destruct (Nat.eqb_spec (length b) 0); [lia|]. simpl.
    by rewrite Nat.max_r, lenLCS_sym by lia.
Qed.

Lemma similarityMetric_comm a b : similarityMetric a b = similarityMetric b a.
Proof.
  destruct a as [|x a]; [by rewrite similarityMetric_nil_l, similarityMetric_nil_r|].
  destruct b as [|y b]; [by rewrite similarityMetric_nil_l, similarityMetric_nil_r|].
  rewrite !similarityMetric_ratio by done.
  by rewrite lenLCS_sym, Nat.max_comm.
Qed.

(** The result is always a finite value: the quotient of the LCS length
    by the larger length (zero when an argument is empty). *)
Lemma similarityMetric_value a b :
  ∃ q, similarityMetric a b = Fin q ∧
       (q == inject_Z (Z.of_nat (lenLCS a b))
             / inject_Z (Z.of_nat (length a `max` length b)))%Q.
Proof.
  assert (∀ c, lenLCS [] c = 0) as Hnil.
  { intros c. pose proof (lenLCS_le_min [] c). simpl in *. lia. }
  destruct a as [|x a].
  { rewrite similarityMetric_nil_l, Hnil. exists 0%Q. split; [done|].
    unfold Qdiv. by rewrite Qmult_0_l. }
  destruct b as [|y b].
  { rewrite similarityMetric_nil_r, lenLCS_sym, Hnil. exists 0%Q.
    split; [done|]. unfold Qdiv. by rewrite Qmult_0_l. }
  rewrite similarityMetric_ratio by done.
  rewrite fdiv_of_nat by (simpl; lia).
  eexists; split; [done|]. by rewrite Qred_correct.
Qed.

Lemma similarityMetric_le_ratio a b :
  ∃ q, similarityMetric a b = Fin q ∧
       (q <= inject_Z (Z.of_nat (length a `min` length b))
             / inject_Z (Z.of_nat (length a `max` length b)))%Q.
Proof.
  destruct (similarityMetric_value a b) as (q & Hq & E).
  exists q. split; [done|]. rewrite E.
  apply Qmult_le_compat_r.
  - rewrite <-Zle_Qle. pose proof (lenLCS_le_min a b). lia.
  - apply Qinv_le_0_compat. change 0%Q with (inject_Z 0).
    rewrite <-Zle_Qle. lia.
Qed.

(** A pair the length-ratio test skips does not score above the
    threshold. *)
Lemma prune_sound a b threshold :
  flt (greatestPossibleSimilarity (length a) (length b)) threshold = true →
  fgt (similarityMetric a b) threshold = false.
Proof.
  intros Hskip.
  destruct (decide (0 < length a `max` length b)) as [Hmax|Hmax].
  - destruct (greatestPossibleSimilarity_value _ _ Hmax) as (g & Hg & Eg).
    destruct (similarityMetric_le_ratio a b) as (q & Hq & Hle).
    rewrite Hq. rewrite Hg in Hskip.
    eapply flt_Fin_le; [|done]. by rewrite Eg.
  - assert (length a = 0 ∧ length b = 0) as [Ea Eb] by lia.
    rewrite Ea, Eb in Hskip. by destruct threshold.
Qed.

End Similarity.

Section Table.

Lemma length_tset align r c v : length (tset align r c v) = length align.
Proof. apply length_insert. Qed.

Lemma length_tset_row align r c v r' :
  length (tset align r c v !!! r') = length (align !!! r').
Proof.
  unfold tset. rewrite list_lookup_total_insert.
  case_decide as H; [|done]. destruct H as [-> _]. apply length_insert.
Qed.

Lemma tget_tset_eq align r c v :
  r < length align → c < length (align !!! r) →
  tget (tset align r c v) r c = v.
Proof.
  intros Hr Hc. unfold tget, tset.
  by rewrite !list_lookup_total_insert_eq.
Qed.

Lemma tget_tset_ne align r c v r' c' :
  r' ≠ r ∨ c' ≠ c → tget (tset align r c v) r' c' = tget align r' c'.
Proof.
  intros Hne. unfold tget, tset. rewrite list_lookup_total_insert.
  case_decide as H; [|done]. destruct H as [-> _].
  rewrite list_lookup_total_insert_ne; [done|]. intros ->. by destruct Hne.
Qed.

Variables str1 str2 : cstring.

Lemma table_is_calloc :
  table_is str1 str2
    (replicate (length str2 + 1) (replicate (length str1 + 1) 0)) 0.
Proof.
  assert (∀ r c, r ≤ length str2 → c ≤ length str1 →
    tget (replicate (length str2 + 1) (replicate (length str1 + 1) 0)) r c = 0)
    as Hz.
  { intros r c Hr Hc. unfold tget. by rewrite !lookup_total_replicate_2 by lia. }
  repeat split.
  - apply length_replicate.
  - intros r Hr. rewrite lookup_total_replicate_2 by lia.
    apply length_replicate.
  - intros r c Hr Hc. replace r with 0 by lia. apply Hz; lia.
  - intros r Hr. apply Hz; lia.
Qed.

(** [n] iterations of the column loop on line [S R]. *)
Lemma fill_row_spec R n align :
  S R ≤ length str2 → n ≤ length str1 →
  table_is str1 str2 align R →
  table_is str1 str2 (fill_row str1 str2 n (S R) align) R ∧
  ∀ c, c ≤ n →
    tget (fill_row str1 str2 n (S R) align) (S R) c
    = lcs_pre str1 str2 (S R) c.
Proof.
  intros HR Hn Htab. induction n as [|n IH].
  { split; [done|]. intros c Hc. replace c with 0 by lia.
    destruct Htab as (_ & _ & _ & H0). by rewrite lcs_pre_0_r, H0. }
  destruct IH as [(Hlen & Hrows & Hpre & H0) Hrow]; [lia|].
  unfold fill_row in *. rewrite seq_S, foldl_snoc.
  change (1 + n) with (S n).
  set (A := foldl _ align (seq 1 n)) in *.
  replace (S n - 1) with n by lia. replace (S R - 1) with R by lia.
  split; [repeat split|].
  - by rewrite length_tset.
  - intros r Hr. rewrite length_tset_row. by apply Hrows.
  - intros r c Hr Hc. rewrite tget_tset_ne by lia. by apply Hpre.
  - intros r Hr. rewrite tget_tset_ne by lia. by apply H0.
  - intros c Hc. destruct (decide (c = S n)) as [->|Hne].
    + rewrite tget_tset_eq by (rewrite ?Hrows; lia).
      rewrite lcs_pre_S, !Hpre, Hrow by lia. done.
    + rewrite tget_tset_ne by lia. apply Hrow. lia.
Qed.

(** [n] iterations of the line loop. *)
Lemma fill_table_spec n align :
  n ≤ length str2 →
  table_is str1 str2 align 0 →
  table_is str1 str2 (fill_table str1 str2 (length str1) n align) n.
Proof.
  intros Hn Htab. induction n as [|n IH]; [done|].
  unfold fill_table in *. rewrite seq_S, foldl_snoc.
  change (1 + n) with (S n).
  set (A := foldl _ align (seq 1 n)) in *.
  destruct (fill_row_spec n (length str1) A) as [(Hlen & Hrows & Hpre & H0) Hrow];
    [lia|lia|apply IH; lia|].
  repeat split; try done.
  intros r c Hr Hc. destruct (decide (r = S n)) as [->|Hne].
  - by apply Hrow.
  - apply Hpre; lia.
Qed.

(** The table the reconstruction starts from holds the recurrence. *)
Lemma align_table_spec r c :
  r ≤ length str2 → c ≤ length str1 →
  tget (align_table str1 str2) r c = lcs_pre str1 str2 r c.
Proof.
  intros Hr Hc. unfold align_table.
  destruct (fill_table_spec (length str2)
              (replicate (length str2 + 1) (replicate (length str1 + 1) 0)))
    as (_ & _ & H & _); [lia|apply table_is_calloc|].
  by apply H.
Qed.

Lemma align_table_lenLCS :
  tget (align_table str1 str2) (length str2) (length str1) = lenLCS str1 str2.
Proof. by rewrite align_table_spec, lenLCS_pre. Qed.

End Table.

Lemma c_str_terminated s rest :
  Forall (λ ch, ch ≠ Ascii.zero) s → c_str (s ++ Ascii.zero :: rest) = s.
Proof.
  induction 1 as [|ch s Hch _ IH]; simpl; [done|].
  destruct (Ascii.eqb_spec ch Ascii.zero); [done|]. by rewrite IH.
Qed.

Section Reconstruction.

Variables str1 str2 : cstring.

Local Abbreviation align := (align_table str1 str2).

Lemma cursor_ok_start :
  cursor_ok str1 str2 align
    (Cursor (length str2) (length str1)
       (tget align (length str2) (length str1))).
Proof. by repeat split. Qed.

Lemma cursor_ok_next b s :
  cursor_ok str1 str2 align s →
  cursor_ok str1 str2 align (lcs_next align b s).
Proof.
  destruct s as [r c i]. intros (Hr & Hc & _). simpl in *.
  destruct b; repeat split; simpl; lia.
Qed.

Lemma cursor_start_lenLCS :
  tget align (length str2) (length str1) = lenLCS str1 str2.
Proof. apply align_table_lenLCS. Qed.

(** At a cursor inside the table the cell is the recurrence applied to
    its three neighbours. *)
Lemma cursor_cell r c :
  S r ≤ length str2 → S c ≤ length str1 →
  tget align (S r) (S c)
  = lcs_cell (str1 !!! c) (str2 !!! r)
      (tget align r c) (tget align r (S c)) (tget align (S r) c).
Proof.
  intros Hr Hc.
  rewrite !align_table_spec by lia. apply lcs_pre_S.
Qed.

(** On this table the fall-through arm is never taken. *)
Lemma lcs_branch_moves s :
  cursor_ok str1 str2 align s → lcs_cond s = true →
  lcs_branch align s ≠ NoMove.
Proof.
  destruct s as [r c i]. intros (Hr & Hc & Hi) Hcond. simpl in *.
  unfold lcs_cond in Hcond. simpl in Hcond.
  destruct r as [|r]; [by rewrite andb_false_r in Hcond|].
  destruct c as [|c]; [by rewrite andb_false_r in Hcond|].
  rewrite cursor_cell in Hi by done.
  replace (S r - 1) with r by lia. replace (S c - 1) with c by lia.
  unfold lcs_cell in Hi.
  destruct (tget align r (S c) =? i) eqn:Hup; [done|].
  destruct (tget align (S r) c =? i) eqn:Hleft; [done|].
  apply Nat.eqb_neq in Hup, Hleft.
  destruct (Ascii.eqb _ _).
  - destruct (Nat.eqb_spec (tget align r c) (i - 1)); [done|lia].
  - destruct (_ <=? _); congruence.
Qed.

(** The diagonal arm is only taken on equal characters. *)
Lemma lcs_branch_diag r c i :
  cursor_ok str1 str2 align (Cursor (S r) (S c) i) →
  lcs_branch align (Cursor (S r) (S c) i) = MoveDiag →
  str1 !!! c = str2 !!! r ∧ i = S (tget align r c).
Proof.
  intros (Hr & Hc & Hi). simpl in *.
  rewrite cursor_cell in Hi by done.
  replace (r - 0) with r by lia. replace (c - 0) with c by lia.
  unfold lcs_cell in Hi.
  destruct (tget align r (S c) =? i) eqn:Hup; [done|].
  destruct (tget align (S r) c =? i) eqn:Hleft; [done|].
  apply Nat.eqb_neq in Hup, Hleft. intros _.
  destruct (Ascii.eqb_spec (str1 !!! c) (str2 !!! r)).
  - split; [done|lia].
  - destruct (_ <=? _); congruence.
Qed.

Lemma lcs_next_moves_back b s :
  lcs_cond s = true → b ≠ NoMove → moves_back s (lcs_next align b s).
Proof.
  destruct s as [r c i]. unfold lcs_cond, moves_back. simpl.
  intros Hcond Hb.
  apply andb_prop in Hcond as [Hcond Hc]. apply andb_prop in Hcond as [_ Hr].
  apply Nat.ltb_lt in Hc, Hr.
  destruct b; simpl; [lia..|done].
Qed.

(** The loop ends within [r + c] iterations, all of them good. *)
Lemma lcs_loop_total fuel s :
  cursor_ok str1 str2 align s →
  cur_r s + cur_c s ≤ fuel →
  ∃ iters s',
    lcs_loop fuel align s = Some iters ∧
    runs_to align s iters s' ∧
    Forall (good_iteration align) iters ∧
    length iters ≤ cur_r s + cur_c s.
Proof.
  revert s. induction fuel as [|fuel IH]; intros s Hok Hfuel.
  - destruct (lcs_cond s) eqn:Hcond.
    + unfold lcs_cond in Hcond. destruct s as [[|r] c i]; simpl in *.
      * by rewrite andb_false_r in Hcond.
      * lia.
    + exists [], s. simpl. rewrite Hcond.
      repeat split; [by constructor|constructor|simpl; lia].
  - simpl. destruct (lcs_cond s) eqn:Hcond.
    + pose proof (lcs_branch_moves s Hok Hcond) as Hb.
      pose proof (lcs_next_moves_back _ s Hcond Hb) as Hmv.
      destruct (IH (lcs_next align (lcs_branch align s) s))
        as (iters & s' & Hloop & Hruns & Hgood & Hlen).
      { by apply cursor_ok_next. }
      { unfold moves_back in Hmv. lia. }
      exists ((s, lcs_branch align s) :: iters), s'. rewrite Hloop.
      repeat split; [by constructor| |].
      * constructor; [by repeat split|done].
      * unfold moves_back in Hmv. simpl. lia.
    + exists [], s.
      repeat split; [by constructor|constructor|simpl; lia].
Qed.

Lemma cursor_stop_zero s :
  cursor_ok str1 str2 align s → lcs_cond s = false → cur_i s = 0.
Proof.
  destruct s as [r c i]. intros (Hr & Hc & Hi). unfold lcs_cond. simpl in *.
  intros Hcond. rewrite align_table_spec in Hi by done.
  destruct r as [|r]; [by rewrite Hi|].
  destruct c as [|c]; [by rewrite Hi, lcs_pre_0_r|].
  destruct i; [done|discriminate].
Qed.

Lemma take_sublist_S (l : cstring) n : take n l `sublist_of` take (S n) l.
Proof.
  replace (take n l) with (take n (take (S n) l)).
  - apply sublist_take.
  - rewrite take_take. f_equal. lia.
Qed.

(** The iterations store at the indices [i-1], [i-2], ..., [0], in this
    order, and the characters stored, read by ascending index, are a
    subsequence of both prefixes the cursor delimits. *)
Lemma lcs_loop_writes fuel s iters :
  cursor_ok str1 str2 align s →
  lcs_loop fuel align s = Some iters →
  map fst (flat_map (iter_writes str2) iters) = rev (seq 0 (cur_i s)) ∧
  rev (map snd (flat_map (iter_writes str2) iters))
    `sublist_of` take (cur_c s) str1 ∧
  rev (map snd (flat_map (iter_writes str2) iters))
    `sublist_of` take (cur_r s) str2.
Proof.
  revert s iters. induction fuel as [|fuel IH]; intros s iters Hok Hloop.
  - simpl in Hloop. destruct (lcs_cond s) eqn:Hcond; [done|].
    injection Hloop as <-. rewrite (cursor_stop_zero s) by done.
    repeat split; apply sublist_nil_l.
  - simpl in Hloop. destruct (lcs_cond s) eqn:Hcond.
    2:{ injection Hloop as <-. rewrite (cursor_stop_zero s) by done.
        repeat split; apply sublist_nil_l. }
    apply fmap_Some in Hloop as (iters' & Hloop & ->).
    pose proof (lcs_branch_moves s Hok Hcond) as Hb.
    specialize (IH _ _ (cursor_ok_next (lcs_branch align s) s Hok) Hloop).
    destruct s as [r c i].
    unfold lcs_cond in Hcond. simpl in Hcond.
    destruct r as [|r]; [by rewrite andb_false_r in Hcond|].
    destruct c as [|c]; [by rewrite andb_false_r in Hcond|].
    destruct i as [|i]; [done|].
    cbn [flat_map iter_writes].
    destruct (lcs_branch align (Cursor (S r) (S c) (S i))) eqn:Hbr;
      [| | |done].
    + (* up: the cell above holds [i] *)
      assert (tget align r (S c) = S i) as Hup.
      { simpl in Hbr. replace (r - 0) with r in Hbr by lia.
        destruct (Nat.eqb_spec (tget align r (S c)) (S i)); [done|].
        repeat destruct (_ =? _); done. }
      cbn in IH. replace (r - 0) with r in IH by lia. rewrite Hup in IH.
      destruct IH as (IH1 & IH2 & IH3). cbn [app cur_i cur_c cur_r] in *.
      repeat split; [done..|].
      etrans; [exact IH3|]. apply take_sublist_S.
    + (* left: the cell to the left holds [i] *)
      assert (tget align (S r) c = S i) as Hleft.
      { simpl in Hbr. replace (c - 0) with c in Hbr by lia.
        destruct (tget align (r - 0) (S c) =? S i); [done|].
        destruct (Nat.eqb_spec (tget align (S r) c) (S i)); [done|].
        destruct (_ =? _); done. }
      cbn in IH. replace (c - 0) with c in IH by lia. rewrite Hleft in IH.
      destruct IH as (IH1 & IH2 & IH3). cbn [app cur_i cur_c cur_r] in *.
      repeat split; [done| |done].
      etrans; [exact IH2|]. apply take_sublist_S.
    + (* diagonal: equal characters, one of them is stored *)
      destruct (lcs_branch_diag r c (S i) Hok Hbr) as [Hch Hi].
      injection Hi as Hi.
      cbn in IH. replace (r - 0) with r in IH by lia.
      replace (c - 0) with c in IH by lia. rewrite <-Hi in IH.
      destruct IH as (IH1 & IH2 & IH3).
      destruct Hok as (Hr & Hc & _). simpl in Hr, Hc.
      destruct (lookup_lt_is_Some_2 str1 c) as [x Hx]; [lia|].
      destruct (lookup_lt_is_Some_2 str2 r) as [y Hy]; [lia|].
      rewrite (list_lookup_total_correct _ _ _ Hx) in Hch.
      rewrite (list_lookup_total_correct _ _ _ Hy) in Hch. subst y.
      cbn [app cur_i cur_c cur_r map fst snd rev].
      replace (S r - 1) with r by lia. replace (S i - 1) with i by lia.
      rewrite (list_lookup_total_correct _ _ _ Hy).
      rewrite (take_S_r _ _ _ Hx), (take_S_r _ _ _ Hy).
      repeat split.
      * rewrite seq_S, rev_unit. simpl. by f_equal.
      * by apply sublist_app.
      * by apply sublist_app.
Qed.

(** Stores at [n-1], ..., [0] replace the first [n] cells. *)
Lemma store_all_descending n ws (buf : list ascii) :
  map fst ws = rev (seq 0 n) → n ≤ length buf →
  store_all buf ws = inr (rev (map snd ws) ++ drop n buf).
Proof.
  revert ws buf. induction n as [|n IH]; intros ws buf Hws Hn.
  { destruct ws; [done|discriminate]. }
  rewrite seq_S, rev_unit in Hws.
  destruct ws as [|[k ch] ws]; [discriminate|].
  simpl in Hws. injection Hws as -> Hws. simpl.
  destruct (Nat.ltb_spec n (length buf)); [|lia].
  rewrite (IH ws) by (rewrite ?length_insert; done || lia).
  f_equal. rewrite <-app_assoc. f_equal.
  rewrite insert_take_drop by done.
  rewrite drop_app_length' by (rewrite length_take; lia). done.
Qed.

Hypothesis Hstr1 : str1 ≠ [].
Hypothesis Hstr2 : str2 ≠ [].

Lemma nonempty_lengths :
  (length str1 =? 0) || (length str2 =? 0) = false.
Proof. destruct str1, str2; done. Qed.

(** With room for the terminator the call returns the buffer holding a
    longest common subsequence, the terminator, and its old tail. *)
Lemma longestCommonSubstring_fits lcs :
  lenLCS str1 str2 < length lcs →
  ∃ s, common_subseq s str1 str2 ∧ length s = lenLCS str1 str2 ∧
       longestCommonSubstring lcs str1 str2
       = RetLcs (s ++ Ascii.zero :: drop (S (lenLCS str1 str2)) lcs).
Proof.
  intros Hfit. unfold longestCommonSubstring, longestCommonSubstring_fuel.
  rewrite nonempty_lengths.
  pose proof cursor_ok_start as Hok.
  rewrite cursor_start_lenLCS in *. set (L := lenLCS str1 str2) in *.
  destruct (lcs_loop_total (length str1 + length str2) _ Hok)
    as (iters & s' & Hloop & _); [simpl; lia|].
  rewrite Hloop.
  destruct (lcs_loop_writes _ _ _ Hok Hloop) as (Hidx & Hs1 & Hs2).
  simpl in Hidx, Hs1, Hs2. rewrite !firstn_all in *.
  exists (rev (map snd (flat_map (iter_writes str2) iters))).
  repeat split; [done..| |].
  { rewrite length_rev, length_map.
    rewrite <-(length_map fst), Hidx, length_rev, length_seq. done. }
  unfold lcs_writes. simpl.
  destruct (Nat.ltb_spec L (length lcs)); [|lia].
  rewrite (store_all_descending L) by (rewrite ?length_insert; done || lia).
  do 2 f_equal. rewrite insert_take_drop by done.
  rewrite drop_app_length' by (rewrite length_take; lia). done.
Qed.

(** Without room the first store, that of the terminator, is already
    outside the buffer. *)
Lemma longestCommonSubstring_overrun lcs :
  length lcs ≤ lenLCS str1 str2 →
  longestCommonSubstring lcs str1 str2 = RetOverrun (lenLCS str1 str2).
Proof.
  intros Hfit. unfold longestCommonSubstring, longestCommonSubstring_fuel.
  rewrite nonempty_lengths.
  pose proof cursor_ok_start as Hok.
  rewrite cursor_start_lenLCS in *. set (L := lenLCS str1 str2) in *.
  destruct (lcs_loop_total (length str1 + length str2) _ Hok)
    as (iters & s' & Hloop & _); [simpl; lia|].
  rewrite Hloop. unfold lcs_writes. simpl.
  destruct (Nat.ltb_spec L (length lcs)); [lia|done].
Qed.

End Reconstruction.

Section Matching.

Variable threshold : fval.

Lemma reconstructible_fits a b lcs :
  reconstructible a b → length lcs = MAX_LCS →
  ∃ lcs', longestCommonSubstring lcs a b = RetLcs lcs' ∧
          length lcs' = MAX_LCS.
Proof.
  intros (Ha & Hb & Hlen) Hlcs.
  assert (lenLCS a b < length lcs) as Hfit.
  { destruct (lenLCS_spec a b) as [(s & Hs & <-) _]. rewrite Hlcs. eauto. }
  destruct (longestCommonSubstring_fits a b Ha Hb lcs Hfit)
    as (s & _ & Hs & ->).
  eexists; split; [done|].
  rewrite length_app. simpl. rewrite length_drop. lia.
Qed.

(** One pair: the ghost record grows when the triangular test passes,
    [results] grows when moreover the score is above the threshold. *)
Lemma pn_body_spec i j i_index j_index st :
  length (lcs_buf st) = MAX_LCS →
  (i_index < j_index → matching threshold i j = true →
   reconstructible (name i) (name j)) →
  ∃ lcs', length lcs' = MAX_LCS ∧
    pn_body threshold i j i_index j_index st
    = Done {| results := results st ++
                (if (i_index <? j_index) && matching threshold i j
                 then [(i, j)] else []);
              considered := considered st ++
                (if i_index <? j_index then [(i_index, j_index)] else []);
              lcs_buf := lcs' |}.
Proof.
  intros Hbuf Hsafe. unfold pn_body.
  destruct (Nat.leb_spec j_index i_index) as [Hle|Hlt].
  { destruct (Nat.ltb_spec i_index j_index); [lia|].
    exists (lcs_buf st). split; [done|]. destruct st. simpl.
    by rewrite !app_nil_r. }
  destruct (Nat.ltb_spec i_index j_index); [|lia]. simpl.
  destruct (flt _ threshold) eqn:Hskip.
  { apply prune_sound in Hskip. unfold matching. rewrite Hskip.
    exists (lcs_buf st). by rewrite app_nil_r. }
  fold (matching threshold i j).
  destruct (matching threshold i j) eqn:Hm.
  - destruct (reconstructible_fits (name i) (name j) (lcs_buf st))
      as (lcs' & -> & Hlcs'); [by apply Hsafe|done|].
    by exists lcs'.
  - exists (lcs_buf st). by rewrite app_nil_r.
Qed.

Variable nameList : list NameStructure.

Lemma drop_nth_name k j js :
  drop k nameList = j :: js →
  nth_name nameList (S k) = j ∧ drop (S k) nameList = js.
Proof.
  intros Hdrop. split.
  - unfold nth_name. replace (S k - 1) with k by lia.
    apply list_lookup_total_correct.
    rewrite <-(Nat.add_0_r k), <-lookup_drop, Hdrop. done.
  - replace (S k) with (k + 1) by lia.
    rewrite <-drop_drop, Hdrop. done.
Qed.

(** The inner loop from the counter value [k] on. *)
Lemma pn_inner_spec i_index js k st :
  js = drop k nameList →
  length (lcs_buf st) = MAX_LCS →
  (∀ j_index, k < j_index → i_index < j_index →
     j_index ≤ length nameList →
     hit threshold nameList (i_index, j_index) = true →
     reconstructible (name (nth_name nameList i_index))
                     (name (nth_name nameList j_index))) →
  ∃ lcs', length lcs' = MAX_LCS ∧
    pn_inner threshold (nth_name nameList i_index) i_index js k st
    = Done {| results := results st ++
                map (pick nameList)
                  (List.filter (hit threshold nameList)
                     (map (pair i_index)
                        (List.filter (λ j_index, i_index <? j_index)
                           (seq (S k) (length js)))));
              considered := considered st ++
                map (pair i_index)
                  (List.filter (λ j_index, i_index <? j_index)
                     (seq (S k) (length js)));
              lcs_buf := lcs' |}.
Proof.
  revert k st. induction js as [|j js IH]; intros k st Hjs Hbuf Hsafe.
  { exists (lcs_buf st). split; [done|]. destruct st. simpl.
    by rewrite !app_nil_r. }
  assert (S k ≤ length nameList) as Hk.
  { pose proof (f_equal length Hjs) as Hl.
    rewrite length_drop in Hl. simpl in Hl. lia. }
  symmetry in Hjs. apply drop_nth_name in Hjs as [Hj Hjs].
  cbn [pn_inner].
  destruct (pn_body_spec (nth_name nameList i_index) j i_index (S k) st)
    as (lcs1 & Hlcs1 & ->); [done| |].
  { intros Hlt Hm. rewrite <-Hj. apply Hsafe; [lia..|].
    unfold hit. simpl. by rewrite Hj. }
  match goal with
  | |- context [pn_inner _ _ _ _ _ ?st'] =>
      destruct (IH (S k) st') as (lcs2 & Hlcs2 & ->); [done|done| |]
  end.
  { intros j_index ????. apply Hsafe; lia || done. }
  exists lcs2. split; [done|]. cbn [results considered lcs_buf length seq].
  f_equal. cbn [List.filter].
  destruct (i_index <? S k) eqn:Hlt; cbn [map List.filter andb app].
  - unfold hit at 2. cbn [fst snd]. rewrite Hj.
    destruct (matching threshold (nth_name nameList i_index) j) eqn:Hm;
      cbn [map]; rewrite <-!app_assoc; [|done].
    unfold pick at 2. cbn [fst snd]. rewrite Hj. done.
  - by rewrite !app_nil_r.
Qed.

(** The outer loop from the counter value [k] on. *)
Lemma pn_outer_spec todo k st :
  todo = drop k nameList →
  length (lcs_buf st) = MAX_LCS →
  safe_pairs threshold nameList →
  ∃ lcs', length lcs' = MAX_LCS ∧
    pn_outer threshold nameList todo k st
    = Done {| results := results st ++
                map (pick nameList)
                  (List.filter (hit threshold nameList)
                     (flat_map (row_pairs (length nameList))
                        (seq (S k) (length todo))));
              considered := considered st ++
                flat_map (row_pairs (length nameList))
                  (seq (S k) (length todo));
              lcs_buf := lcs' |}.
Proof.
  intros Htodo Hbuf Hsafe.
  revert k st Htodo Hbuf. induction todo as [|i todo IH]; intros k st Htodo Hbuf.
  { exists (lcs_buf st). split; [done|]. destruct st. simpl.
    by rewrite !app_nil_r. }
  symmetry in Htodo. apply drop_nth_name in Htodo as [Hi Htodo].
  cbn [pn_outer]. rewrite <-Hi.
  destruct (pn_inner_spec (S k) nameList 0 st) as (lcs1 & Hlcs1 & ->);
    [done|done| |].
  { intros j_index ????. apply Hsafe; lia || done. }
  match goal with
  | |- context [pn_outer _ _ _ _ ?st'] =>
      destruct (IH (S k) st') as (lcs2 & Hlcs2 & ->); [done|done|]
  end.
  exists lcs2. split; [done|].
  cbn [results considered lcs_buf length seq flat_map].
  fold (row_pairs (length nameList) (S k)).
  by rewrite List.filter_app, map_app, <-!app_assoc.
Qed.

End Matching.

Section Triangle.

Lemma filter_above i n :
  List.filter (λ j, i <? j) (seq 1 n) = seq (S i) (n - i).
Proof.
  induction n as [|n IH]; [done|].
  rewrite seq_S, List.filter_app, IH. cbn [List.filter Nat.add].
  destruct (Nat.ltb_spec i (S n)).
  - replace (S n - i) with (S (n - i)) by lia.
    rewrite seq_S. do 2 f_equal. lia.
  - replace (S n - i) with 0 by lia. replace (n - i) with 0 by lia. done.
Qed.

Lemma row_pairs_seq n i : row_pairs n i = map (pair i) (seq (S i) (n - i)).
Proof. unfold row_pairs. by rewrite filter_above. Qed.

Lemma elem_of_row_pairs n i p :
  In p (row_pairs n i) ↔ p.1 = i ∧ i < p.2 ∧ p.2 ≤ n.
Proof.
  rewrite row_pairs_seq, in_map_iff. split.
  - intros (j & <- & Hj%in_seq). simpl. lia.
  - destruct p as [i' j]. simpl. intros (-> & ? & ?).
    exists j. split; [done|]. apply in_seq. lia.
Qed.

(** The visited pairs are those with [1 <= i_index < j_index <= n]. *)
Lemma elem_of_triangle n p :
  In p (triangle n) ↔ 1 ≤ p.1 ∧ p.1 < p.2 ∧ p.2 ≤ n.
Proof.
  unfold triangle. rewrite in_flat_map. split.
  - intros (i & Hi%in_seq & Hp%elem_of_row_pairs). lia.
  - intros (? & ? & ?). exists p.1. split.
    + apply in_seq. lia.
    + by apply elem_of_row_pairs.
Qed.







End Triangle.

Section Checks.

Lemma runs_to_end align s iters s' :
  runs_to align s iters s' → lcs_cond s' = false.
Proof. induction 1; done. Qed.


(** Names shorter than the buffer and a threshold that is not negative
    make every reported pair reconstructible. *)
Lemma safe_pairs_short threshold nameList :
  Forall (λ x, length (name x) < MAX_LCS) nameList →
  flt threshold f0 = false →
  safe_pairs threshold nameList.
Proof.
  intros Hshort Hthr i_index j_index Hi Hij Hj Hhit.
  unfold hit, matching in Hhit. simpl in Hhit.
  set (a := nth_name nameList i_index) in *.
  set (b := nth_name nameList j_index) in *.
  assert (length (name a) < MAX_LCS) as Ha.
  { unfold a, nth_name.
    apply (Forall_lookup_total_1 (λ x, length (name x) < MAX_LCS)); [done|lia]. }
  assert (similarityMetric (name a) (name b) ≠ f0) as Hne.
  { intros E. rewrite E in Hhit. unfold fgt in Hhit. congruence. }
  repeat split.
  - intros E. rewrite E, similarityMetric_nil_l in Hne. done.
  - intros E. rewrite E, similarityMetric_nil_r in Hne. done.
  - intros s [Hs _]. apply sublist_length in Hs. lia.
Qed.

Lemma lcs_loop_more_fuel align fuel fuel' s iters :
  lcs_loop fuel align s = Some iters → fuel ≤ fuel' →
  lcs_loop fuel' align s = Some iters.
Proof.
  revert fuel' s iters. induction fuel as [|fuel IH]; intros fuel' s iters.
  - simpl. destruct (lcs_cond s) eqn:Hcond; [done|].
    intros <- _. destruct fuel'; simpl; by rewrite Hcond.
  - simpl. destruct (lcs_cond s) eqn:Hcond.
    + intros (iters' & Hloop & ->)%fmap_Some Hfuel.
      destruct fuel' as [|fuel']; [lia|]. simpl. rewrite Hcond.
      rewrite (IH fuel' _ iters') by (done || lia). done.
    + intros <- _. destruct fuel'; simpl; by rewrite Hcond.
Qed.

Lemma similarityMetric_ratio_self (s : cstring) :
  s ≠ [] → similarityMetric s s = f1.
Proof.
  intros Hs. rewrite similarityMetric_ratio by done.
  rewrite Nat.max_id.
  rewrite (is_lcs_length_unique s s _ _ (lenLCS_spec s s) (is_lcs_length_refl s)).
  apply fdiv_of_nat_same. destruct s; simpl; [done|lia].
Qed.

Lemma long_name_overrun :
  longestCommonSubstring lcs_initial long_name long_name = RetOverrun 256.
Proof. vm_compute. reflexivity. Qed.


End Checks.

(** * The claims *)




(** C2.  On non-empty arguments [similarityMetric] returns [L / len1],
    [L] being the length of a longest common subsequence of the two
    arguments and [len1] the length of the longer one; so
    [similarityMetric "buffer" "fer"] is [3/6 = 1/2], and not the
    Ratcliff/Obershelp value [2*3/(6+3)]. *)
Theorem similarityMetric_lcs_ratio (a b : cstring) :
  a ≠ [] → b ≠ [] →
  (∃ L, is_lcs_length a b L ∧
        lenLCS a b = L ∧
        similarityMetric a b
        = Fin (Qred (inject_Z (Z.of_nat L)
                     / inject_Z (Z.of_nat (length a `max` length b))))) ∧
  similarityMetric (cstr "buffer") (cstr "fer") = Fin (1 # 2) ∧
  similarityMetric (cstr "buffer") (cstr "fer")
    ≠ fdiv (fof_nat (2 * 3)) (fof_nat (6 + 3)).
Proof.
  intros Ha Hb. split; [|split; [reflexivity|discriminate]].
  exists (lenLCS a b). split; [apply lenLCS_spec|]. split; [done|].
  rewrite similarityMetric_ratio by done. apply fdiv_of_nat.
  destruct a; simpl; [done|lia].
Qed.

Lemma similarityMetric_lcs_ratio_witness :
  cstr "ALEXANDRE" ≠ [] ∧ cstr "ALEKSANDER" ≠ [] ∧
  ∃ L, is_lcs_length (cstr "ALEXANDRE") (cstr "ALEKSANDER") L ∧
       lenLCS (cstr "ALEXANDRE") (cstr "ALEKSANDER") = L ∧
       similarityMetric (cstr "ALEXANDRE") (cstr "ALEKSANDER")
       = Fin (Qred (inject_Z (Z.of_nat L) / inject_Z (Z.of_nat (9 `max` 10)))).
Proof.
  assert (cstr "ALEXANDRE" ≠ []) as H1 by discriminate.
  assert (cstr "ALEKSANDER" ≠ []) as H2 by discriminate.
  split; [exact H1|]. split; [exact H2|].
  exact (proj1 (similarityMetric_lcs_ratio _ _ H1 H2)).
Defined.








(** C6.  A non-empty string scores exactly 1.0 against itself. *)
Theorem similarityMetric_self (s : cstring) :
  s ≠ [] → similarityMetric s s = f1.
Proof.
  intros Hs. rewrite similarityMetric_ratio by done.
  rewrite Nat.max_id.
  assert (lenLCS s s = length s) as ->.
  { eapply is_lcs_length_unique; [apply lenLCS_spec|].
    apply is_lcs_length_refl. }
  apply fdiv_of_nat_same. destruct s; simpl; [done|lia].
Qed.

Lemma similarityMetric_self_witness :
  cstr "count" ≠ [] ∧ similarityMetric (cstr "count") (cstr "count") = f1.
Proof.
  assert (cstr "count" ≠ []) as H by discriminate.
  exact (conj H (similarityMetric_self _ H)).
Defined.

(** C7.  With an empty argument on either side the result is the
    literal 0.0, which is not NaN. *)
Theorem similarityMetric_empty (s : cstring) :
  similarityMetric s [] = f0 ∧ similarityMetric [] s = f0 ∧
  f0 = Fin 0 ∧ f0 ≠ FNaN.
Proof.
  split; [apply similarityMetric_nil_r|].
  split; [apply similarityMetric_nil_l|]. done.
Qed.



(** C9, at the failing input.  For two copies of a 256-character string
    the reconstruction stores the terminator at index 256 = [MAX_LCS] of
    the 256-character buffer, one past its end; the score of the pair is
    unaffected. *)
Theorem longestCommonSubstring_long_overrun :
  length long_name = 256 ∧
  length lcs_initial = MAX_LCS ∧
  (∃ k, longestCommonSubstring lcs_initial long_name long_name = RetOverrun k ∧
        k = 256 ∧ ¬ k < MAX_LCS) ∧
  similarityMetric long_name long_name = f1.
Proof.
  split; [reflexivity|]. split; [reflexivity|]. split.
  - exists 256. split; [apply long_name_overrun|]. unfold MAX_LCS. lia.
  - apply similarityMetric_ratio_self. discriminate.
Qed.

(** C10.  On the table built by the recurrence the backward loop ends
    within [len1 + len2] iterations, whatever fuel beyond that it is
    given: each iteration is admitted by the loop condition, takes the
    up, left or diagonal arm (never the fall-through) and moves the
    cursor back in [r], in [c] or in both; the iterations follow one
    another up to a cursor where [i], [r] or [c] is 0; so the call never
    hangs.  (With an empty argument the function returns before the
    loop.) *)
Theorem reconstruction_terminates (str1 str2 : cstring) :
  ∃ iters s_end,
    (∀ fuel, length str1 + length str2 ≤ fuel →
       lcs_loop fuel (align_table str1 str2)
         (Cursor (length str2) (length str1)
            (tget (align_table str1 str2) (length str2) (length str1)))
       = Some iters) ∧
    runs_to (align_table str1 str2)
      (Cursor (length str2) (length str1)
         (tget (align_table str1 str2) (length str2) (length str1)))
      iters s_end ∧
    (cur_i s_end = 0 ∨ cur_r s_end = 0 ∨ cur_c s_end = 0) ∧
    Forall (good_iteration (align_table str1 str2)) iters ∧
    length iters ≤ length str1 + length str2 ∧
    ∀ lcs, longestCommonSubstring lcs str1 str2 ≠ RetHang.
Proof.
  pose proof (cursor_ok_start str1 str2) as Hok.
  destruct (lcs_loop_total str1 str2 (length str1 + length str2) _ Hok)
    as (iters & s_end & Hloop & Hruns & Hgood & Hlen); [simpl; lia|].
  exists iters, s_end. repeat split; try done.
  - intros fuel Hfuel. by eapply lcs_loop_more_fuel.
  - apply runs_to_end in Hruns. unfold lcs_cond in Hruns.
    destruct (cur_i s_end), (cur_r s_end), (cur_c s_end); auto; discriminate.
  - simpl in Hlen. lia.
  - intros lcs. unfold longestCommonSubstring, longestCommonSubstring_fuel.
    destruct (_ || _); [done|]. rewrite Hloop.
    by destruct (store_all _ _).
Qed.

Lemma reconstruction_terminates_witness :
  length (cstr "count") + length (cstr "total") ≤ 10 ∧
  ∃ iters,
    lcs_loop 10 (align_table (cstr "count") (cstr "total"))
      (Cursor 5 5 (tget (align_table (cstr "count") (cstr "total")) 5 5))
    = Some iters ∧
    Forall (good_iteration (align_table (cstr "count") (cstr "total"))) iters.
Proof.
  assert (length (cstr "count") + length (cstr "total") ≤ 10) as H
    by (simpl; lia).
  split; [exact H|].
  destruct (reconstruction_terminates (cstr "count") (cstr "total"))
    as (iters & s_end & Hloop & _ & _ & Hgood & _).
  exists iters. split; [exact (Hloop 10 H)|exact Hgood].
Defined.

(** * Further properties *)

(** X2.  The score is a finite value between 0 and 1, for all
    arguments. *)
Theorem similarityMetric_unit_interval (a b : cstring) :
  ∃ q, similarityMetric a b = Fin q ∧ (0 <= q)%Q ∧ (q <= 1)%Q.
Proof.
  destruct (similarityMetric_value a b) as (q & Hq & E).
  exists q. split; [done|]. rewrite E.
  pose proof (lenLCS_le_min a b) as Hle.
  set (L := lenLCS a b) in *.
  set (m := length a `max` length b) in *.
  assert (L ≤ m) as HLm by lia.
  destruct (decide (m = 0)) as [Hm|Hm].
  { rewrite Hm. replace L with 0 by lia. split; by vm_compute. }
  assert (0 < inject_Z (Z.of_nat m))%Q as Hpos.
  { change 0%Q with (inject_Z 0). rewrite <-Zlt_Qlt. lia. }
  split.
  - apply Qle_shift_div_l; [done|]. rewrite Qmult_0_l.
    change 0%Q with (inject_Z 0). rewrite <-Zle_Qle. lia.
  - apply Qle_shift_div_r; [done|]. rewrite Qmult_1_l.
    rewrite <-Zle_Qle. lia.
Qed.

(** X3.  The rolling program of [similarityMetric] computes the length
    of a longest common subsequence of its arguments: some common
    subsequence has that length and none is longer. *)
Theorem lenLCS_is_lcs_length (str1 str2 : cstring) :
  is_lcs_length str1 str2 (lenLCS str1 str2) ∧
  lenLCS str1 str2 = lenLCS str2 str1 ∧
  lenLCS str1 str2 ≤ length str1 `min` length str2.
Proof.
  split; [apply lenLCS_spec|]. split; [apply lenLCS_sym|apply lenLCS_le_min].
Qed.

(** X4.  Every cell [align[r][c]] of the table [longestCommonSubstring]
    builds is the length of a longest common subsequence of the first
    [c] characters of [str1] and the first [r] characters of [str2]. *)
Theorem align_table_cells (str1 str2 : cstring) (r c : nat) :
  r ≤ length str2 → c ≤ length str1 →
  is_lcs_length (take c str1) (take r str2) (tget (align_table str1 str2) r c).
Proof.
  intros Hr Hc. rewrite align_table_spec by done. by apply lcs_pre_spec.
Qed.

Lemma align_table_cells_witness :
  3 ≤ length (cstr "total") ∧ 5 ≤ length (cstr "count") ∧
  is_lcs_length (take 5 (cstr "count")) (take 3 (cstr "total"))
    (tget (align_table (cstr "count") (cstr "total")) 3 5).
Proof.
  assert (3 ≤ length (cstr "total")) as H1 by (simpl; lia).
  assert (5 ≤ length (cstr "count")) as H2 by (simpl; lia).
  exact (conj H1 (conj H2 (align_table_cells _ _ 3 5 H1 H2))).
Defined.

(** X5.  For non-empty arguments and the 256-character buffer the call
    overruns the buffer exactly when the longest common subsequences
    have 256 characters or more, and the first store outside it is that
    of the terminator, at the index of their length. *)
Theorem longestCommonSubstring_overrun_iff (lcs : list ascii)
    (str1 str2 : cstring) :
  str1 ≠ [] → str2 ≠ [] → length lcs = MAX_LCS →
  ((∃ k, longestCommonSubstring lcs str1 str2 = RetOverrun k) ↔
   MAX_LCS ≤ lenLCS str1 str2) ∧
  (∀ k, longestCommonSubstring lcs str1 str2 = RetOverrun k →
        k = lenLCS str1 str2).
Proof.
  intros H1 H2 Hlcs.
  destruct (decide (MAX_LCS ≤ lenLCS str1 str2)) as [Hge|Hlt].
  - rewrite (longestCommonSubstring_overrun str1 str2 H1 H2 lcs) by lia.
    split; [split; eauto|]. by intros k [= <-].
  - destruct (longestCommonSubstring_fits str1 str2 H1 H2 lcs)
      as (s & _ & _ & ->); [lia|].
    split; [split|]; [by intros [k ?]|lia|done].
Qed.

Lemma longestCommonSubstring_overrun_iff_witness :
  cstr "count" ≠ [] ∧ cstr "total" ≠ [] ∧ length lcs_initial = MAX_LCS ∧
  ((∃ k, longestCommonSubstring lcs_initial (cstr "count") (cstr "total")
         = RetOverrun k) ↔
   MAX_LCS ≤ lenLCS (cstr "count") (cstr "total")).
Proof.
  assert (cstr "count" ≠ []) as H1 by discriminate.
  assert (cstr "total" ≠ []) as H2 by discriminate.
  assert (length lcs_initial = MAX_LCS) as H3 by reflexivity.
  do 3 (split; [assumption|]).
  exact (proj1 (longestCommonSubstring_overrun_iff _ _ _ H1 H2 H3)).
Defined.

Section Scores.

Implicit Types a b s : cstring.

Lemma sublist_full_length {A} (s l : list A) :
  s `sublist_of` l → length l ≤ length s → s = l.
Proof.
  induction 1 as [|x s l _ IH|x s l Hs _]; simpl; intros Hlen; [done| |].
  - f_equal. apply IH. lia.
  - apply sublist_length in Hs. lia.
Qed.

Lemma lenLCS_sublist a b : a `sublist_of` b → lenLCS a b = length a.
Proof.
  intros Hab. destruct (lenLCS_spec a b) as [_ Hmax].
  pose proof (lenLCS_le_min a b).
  assert (length a ≤ lenLCS a b) by (by apply Hmax).
  lia.
Qed.

Lemma lenLCS_zero_iff a b :
  lenLCS a b = 0 ↔ ∀ ch, ¬ (ch ∈ a ∧ ch ∈ b).
Proof.
  destruct (lenLCS_spec a b) as [(s & [Hsa Hsb] & Hlen) Hmax]. split.
  - intros H0 ch [Ha Hb].
    assert (length [ch] ≤ lenLCS a b) as Hle.
    { apply Hmax. split; by apply singleton_sublist_l. }
    simpl in Hle. lia.
  - intros Hno. destruct s as [|ch s]; [by rewrite <-Hlen|].
    exfalso. apply (Hno ch). split.
    + apply (sublist_subseteq _ _ Hsa). by left.
    + apply (sublist_subseteq _ _ Hsb). by left.
Qed.


Lemma Fin_ratio_zero n m :
  0 < m →
  Fin (Qred (inject_Z (Z.of_nat n) / inject_Z (Z.of_nat m))) = f0 → n = 0.
Proof.
  intros Hm [= H].
  assert (inject_Z (Z.of_nat n) / inject_Z (Z.of_nat m) == 0)%Q as E
    by (by rewrite <-(Qred_correct (_ / _)), H).
  assert (¬ (inject_Z (Z.of_nat m) == 0)%Q) as Hne.
  { unfold Qeq. simpl. lia. }
  assert (inject_Z (Z.of_nat n) == 0)%Q as E'.
  { rewrite <-(Qmult_0_l (inject_Z (Z.of_nat m))), <-E. field. done. }
  unfold Qeq in E'. simpl in E'. lia.
Qed.

Lemma similarityMetric_quotient a b :
  a ≠ [] → b ≠ [] →
  similarityMetric a b
  = Fin (Qred (inject_Z (Z.of_nat (lenLCS a b))
               / inject_Z (Z.of_nat (length a `max` length b)))).
Proof.
  intros Ha Hb. rewrite similarityMetric_ratio by done.
  apply fdiv_of_nat. destruct a; simpl; [done|lia].
Qed.

End Scores.


(** X7.  The score is 0.0 exactly when the two strings have no
    character in common (as when one of them is empty). *)
Theorem similarityMetric_zero_iff (a b : cstring) :
  similarityMetric a b = f0 ↔ ∀ ch, ¬ (ch ∈ a ∧ ch ∈ b).
Proof.
  destruct a as [|x a].
  { rewrite similarityMetric_nil_l. split; [|done].
    intros _ ch [H _]. by apply elem_of_nil in H. }
  destruct b as [|y b].
  { rewrite similarityMetric_nil_r. split; [|done].
    intros _ ch [_ H]. by apply elem_of_nil in H. }
  rewrite <-lenLCS_zero_iff, similarityMetric_quotient by done. split.
  - apply Fin_ratio_zero. simpl. lia.
  - intros ->. unfold f0.
    f_equal; try (apply Qred_complete; unfold Qdiv; by rewrite Qmult_0_l).
Qed.

(** X8.  When one string is a subsequence of the other (a prefix, a
    suffix, the other with characters left out), the score is the
    quotient of the two lengths, in either argument order. *)
Theorem similarityMetric_subsequence (a b : cstring) :
  a ≠ [] → a `sublist_of` b →
  similarityMetric a b
  = Fin (Qred (inject_Z (Z.of_nat (length a)) / inject_Z (Z.of_nat (length b)))) ∧
  similarityMetric b a = similarityMetric a b.
Proof.
  intros Ha Hab. split; [|apply similarityMetric_comm].
  assert (b ≠ []) as Hb by (intros ->; by apply sublist_nil_r in Hab).
  rewrite similarityMetric_quotient, lenLCS_sublist by done.
  apply sublist_length in Hab. by rewrite Nat.max_r by lia.
Qed.

Lemma similarityMetric_subsequence_witness :
  cstr "count" ≠ [] ∧ cstr "count" `sublist_of` cstr "countt" ∧
  similarityMetric (cstr "count") (cstr "countt") = Fin (5 # 6).
Proof.
  assert (cstr "count" ≠ []) as H1 by discriminate.
  assert (cstr "count" `sublist_of` cstr "countt") as H2
    by (vm_compute; repeat constructor).
  split; [exact H1|]. split; [exact H2|].
  exact (proj1 (similarityMetric_subsequence _ _ H1 H2)).
Defined.

Section Buffer.

Variables str1 str2 : cstring.
Hypothesis Hstr1 : str1 ≠ [].
Hypothesis Hstr2 : str2 ≠ [].

(** The string stored does not depend on the buffer it is stored in. *)
Lemma longestCommonSubstring_fits_uniform :
  ∃ s, common_subseq s str1 str2 ∧ length s = lenLCS str1 str2 ∧
       ∀ lcs, lenLCS str1 str2 < length lcs →
         longestCommonSubstring lcs str1 str2
         = RetLcs (s ++ Ascii.zero :: drop (S (lenLCS str1 str2)) lcs).
Proof.
  pose proof (cursor_ok_start str1 str2) as Hok.
  rewrite cursor_start_lenLCS in Hok. set (L := lenLCS str1 str2) in *.
  destruct (lcs_loop_total str1 str2 (length str1 + length str2) _ Hok)
    as (iters & s' & Hloop & _); [simpl; lia|].
  destruct (lcs_loop_writes _ _ _ _ _ Hok Hloop) as (Hidx & Hs1 & Hs2).
  simpl in Hidx, Hs1, Hs2. rewrite !firstn_all in *.
  exists (rev (map snd (flat_map (iter_writes str2) iters))).
  split; [done|]. split.
  { rewrite length_rev, length_map.
    rewrite <-(length_map fst), Hidx, length_rev, length_seq. done. }
  intros lcs Hfit.
  unfold longestCommonSubstring, longestCommonSubstring_fuel.
  rewrite (nonempty_lengths str1 str2 Hstr1 Hstr2).
  rewrite cursor_start_lenLCS. fold L. rewrite Hloop.
  unfold lcs_writes. simpl.
  destruct (Nat.ltb_spec L (length lcs)); [|lia].
  rewrite (store_all_descending L) by (rewrite ?length_insert; done || lia).
  do 2 f_equal. rewrite insert_take_drop by done.
  rewrite drop_app_length' by (rewrite length_take; lia). done.
Qed.

Lemma longestCommonSubstring_not_null lcs :
  longestCommonSubstring lcs str1 str2 ≠ RetNull.
Proof.
  destruct (decide (lenLCS str1 str2 < length lcs)).
  - destruct (longestCommonSubstring_fits str1 str2 Hstr1 Hstr2 lcs)
      as (s & _ & _ & ->); done.
  - rewrite (longestCommonSubstring_overrun str1 str2 Hstr1 Hstr2) by lia.
    done.
Qed.

End Buffer.

(** X9.  When the longest common subsequences are shorter than the
    buffer, a call overwrites exactly the cells [0..L] of [lcs]: [L]
    characters that form a common subsequence of maximal length [L], the
    same whatever the buffer held before, then the terminator; the cells
    after the terminator keep their previous content. *)
Theorem longestCommonSubstring_buffer (str1 str2 : cstring) :
  str1 ≠ [] → str2 ≠ [] → lenLCS str1 str2 < MAX_LCS →
  ∃ s, common_subseq s str1 str2 ∧ length s = lenLCS str1 str2 ∧
    ∀ lcs, length lcs = MAX_LCS →
      ∃ lcs',
        longestCommonSubstring lcs str1 str2 = RetLcs lcs' ∧
        length lcs' = MAX_LCS ∧
        take (lenLCS str1 str2) lcs' = s ∧
        lcs' !! lenLCS str1 str2 = Some Ascii.zero ∧
        ∀ k, lenLCS str1 str2 < k → lcs' !! k = lcs !! k.
Proof.
  intros H1 H2 Hfit.
  destruct (longestCommonSubstring_fits_uniform str1 str2 H1 H2)
    as (s & Hs & Hlen & Hret).
  exists s. split; [done|]. split; [done|]. intros lcs Hlcs.
  eexists. split; [apply Hret; lia|].
  set (L := lenLCS str1 str2) in *. repeat split.
  - rewrite length_app. simpl. rewrite length_drop. lia.
  - rewrite take_app_length' by done. done.
  - rewrite lookup_app_r by lia. by rewrite Hlen, Nat.sub_diag.
  - intros k Hk. rewrite lookup_app_r by lia. rewrite Hlen.
    replace (k - L) with (S (k - S L)) by lia. simpl.
    rewrite lookup_drop. f_equal. lia.
Qed.

Lemma longestCommonSubstring_buffer_witness :
  cstr "count" ≠ [] ∧ cstr "total" ≠ [] ∧
  lenLCS (cstr "count") (cstr "total") < MAX_LCS ∧
  ∃ s, common_subseq s (cstr "count") (cstr "total") ∧
       length s = lenLCS (cstr "count") (cstr "total").
Proof.
  assert (cstr "count" ≠ []) as H1 by discriminate.
  assert (cstr "total" ≠ []) as H2 by discriminate.
  assert (lenLCS (cstr "count") (cstr "total") < MAX_LCS) as H3
    by (vm_compute; lia).
  do 3 (split; [assumption|]).
  destruct (longestCommonSubstring_buffer _ _ H1 H2 H3) as (s & Hs & Hl & _).
  exists s. split; assumption.
Defined.

(** X10.  The null pointer is returned for an empty argument and only
    then; for two non-empty strings that have no character in common the
    call returns the buffer with the terminator stored in its first
    cell, an empty string. *)
Theorem longestCommonSubstring_null_iff (lcs : list ascii) (a b : cstring) :
  (longestCommonSubstring lcs a b = RetNull ↔ a = [] ∨ b = []) ∧
  (a ≠ [] → b ≠ [] → (∀ ch, ¬ (ch ∈ a ∧ ch ∈ b)) → lcs ≠ [] →
   longestCommonSubstring lcs a b = RetLcs (<[0 := Ascii.zero]> lcs) ∧
   c_str (<[0 := Ascii.zero]> lcs) = []).
Proof.
  split.
  - split.
    + intros H. destruct a as [|x a]; [by left|].
      destruct b as [|y b]; [by right|].
      by apply longestCommonSubstring_not_null in H.
    + intros [-> | ->];
        unfold longestCommonSubstring, longestCommonSubstring_fuel; simpl;
        [done|by rewrite orb_true_r].
  - intros Ha Hb Hno Hlcs.
    apply lenLCS_zero_iff in Hno.
    destruct (longestCommonSubstring_fits a b Ha Hb lcs)
      as (s & _ & Hlen & ->).
    { rewrite Hno. destruct lcs; simpl; [done|lia]. }
    rewrite Hno in *. destruct s; [|done].
    destruct lcs as [|ch lcs]; [done|]. simpl. by rewrite drop_0.
Qed.

Lemma longestCommonSubstring_null_iff_witness :
  cstr "abc" ≠ [] ∧ cstr "xyz" ≠ [] ∧
  (∀ ch, ¬ (ch ∈ cstr "abc" ∧ ch ∈ cstr "xyz")) ∧ lcs_initial ≠ [] ∧
  longestCommonSubstring lcs_initial (cstr "abc") (cstr "xyz")
  = RetLcs (<[0 := Ascii.zero]> lcs_initial).
Proof.
  assert (cstr "abc" ≠ []) as H1 by discriminate.
  assert (cstr "xyz" ≠ []) as H2 by discriminate.
  assert (∀ ch, ¬ (ch ∈ cstr "abc" ∧ ch ∈ cstr "xyz")) as H3.
  { intros ch [Ha Hb]. apply list_elem_of_In in Ha, Hb. simpl in Ha, Hb.
    intuition congruence. }
  assert (lcs_initial ≠ []) as H4 by discriminate.
  do 4 (split; [assumption|]).
  exact (proj1 (proj2 (longestCommonSubstring_null_iff lcs_initial _ _)
                  H1 H2 H3 H4)).
Defined.

(** X11.  When one argument is a subsequence of the other (shorter than
    the buffer, not empty, without the terminator character), the string
    returned is that argument, in either argument order; in particular a
    string is returned for itself. *)
Theorem longestCommonSubstring_subsequence (lcs : list ascii) (a b : cstring) :
  a ≠ [] → a `sublist_of` b →
  Forall (λ ch, ch ≠ Ascii.zero) a →
  length a < MAX_LCS → length lcs = MAX_LCS →
  (∃ lcs', longestCommonSubstring lcs a b = RetLcs lcs' ∧ c_str lcs' = a) ∧
  (∃ lcs', longestCommonSubstring lcs b a = RetLcs lcs' ∧ c_str lcs' = a).
Proof.
  intros Ha Hab Hnul Hlen Hlcs.
  assert (b ≠ []) as Hb by (intros ->; by apply sublist_nil_r in Hab).
  pose proof (lenLCS_sublist a b Hab) as HL.
  split.
  - destruct (longestCommonSubstring_fits a b Ha Hb lcs)
      as (s & [Hs _] & Hs' & ->); [lia|].
    eexists. split; [done|].
    rewrite (sublist_full_length s a Hs) by lia.
    by apply c_str_terminated.
  - destruct (longestCommonSubstring_fits b a Hb Ha lcs)
      as (s & [_ Hs] & Hs' & ->); [rewrite lenLCS_sym; lia|].
    eexists. split; [done|].
    rewrite lenLCS_sym in Hs'.
    rewrite (sublist_full_length s a Hs) by lia.
    by apply c_str_terminated.
Qed.

Lemma longestCommonSubstring_subsequence_witness :
  cstr "fer" ≠ [] ∧ cstr "fer" `sublist_of` cstr "buffer" ∧
  Forall (λ ch, ch ≠ Ascii.zero) (cstr "fer") ∧
  length (cstr "fer") < MAX_LCS ∧ length lcs_initial = MAX_LCS ∧
  ∃ lcs', longestCommonSubstring lcs_initial (cstr "buffer") (cstr "fer")
          = RetLcs lcs' ∧ c_str lcs' = cstr "fer".
Proof.
  assert (cstr "fer" ≠ []) as H1 by discriminate.
  assert (cstr "fer" `sublist_of` cstr "buffer") as H2
    by (vm_compute; repeat constructor).
  assert (Forall (λ ch, ch ≠ Ascii.zero) (cstr "fer")) as H3
    by (repeat constructor; discriminate).
  assert (length (cstr "fer") < MAX_LCS) as H4 by (vm_compute; lia).
  assert (length lcs_initial = MAX_LCS) as H5 by reflexivity.
  do 5 (split; [assumption|]).
  exact (proj2 (longestCommonSubstring_subsequence _ _ _ H1 H2 H3 H4 H5)).
Defined.

Section Completion.

Variable threshold : fval.

(** The diagnostic call returns a string exactly for reconstructible
    pairs. *)
Lemma reconstructible_iff a b lcs :
  length lcs = MAX_LCS →
  (∃ lcs', longestCommonSubstring lcs a b = RetLcs lcs') ↔ reconstructible a b.
Proof.
  intros Hlcs. split.
  - intros [lcs' H].
    destruct a as [|x a]; [done|].
    destruct b as [|y b].
    { unfold longestCommonSubstring, longestCommonSubstring_fuel in H.
      simpl in H. done. }
    destruct (decide (lenLCS (x :: a) (y :: b) < MAX_LCS)) as [Hlt|Hge].
    + repeat split; [done..|]. intros s Hs.
      destruct (lenLCS_spec (x :: a) (y :: b)) as [_ Hmax].
      apply Hmax in Hs. lia.
    + rewrite longestCommonSubstring_overrun in H by (done || lia). done.
  - intros Hrec.
    destruct (reconstructible_fits a b lcs Hrec Hlcs) as (lcs' & H & _).
    eauto.
Qed.

Lemma pn_body_done i j i_index j_index st st' :
  length (lcs_buf st) = MAX_LCS →
  pn_body threshold i j i_index j_index st = Done st' →
  length (lcs_buf st') = MAX_LCS ∧
  (i_index < j_index → matching threshold i j = true →
   reconstructible (name i) (name j)).
Proof.
  intros Hbuf. unfold pn_body.
  destruct (Nat.leb_spec j_index i_index) as [Hle|Hlt].
  { intros [= <-]. split; [done|lia]. }
  cbn [lcs_buf results considered].
  destruct (flt _ threshold) eqn:Hskip.
  { intros [= <-]. split; [done|]. apply prune_sound in Hskip.
    unfold matching. congruence. }
  fold (matching threshold i j).
  destruct (matching threshold i j) eqn:Hm.
  - destruct (longestCommonSubstring _ _ _) as [|lcs'| |] eqn:Hret; try done.
    intros [= <-]. simpl.
    assert (reconstructible (name i) (name j)) as Hrec
      by (apply (reconstructible_iff _ _ (lcs_buf st)); eauto).
    split; [|done].
    destruct (reconstructible_fits _ _ _ Hrec Hbuf) as (lcs2 & E & Hl).
    congruence.
  - intros [= <-]. by split.
Qed.

Variable nameList : list NameStructure.

Lemma pn_inner_done i_index js k st st' :
  js = drop k nameList →
  length (lcs_buf st) = MAX_LCS →
  pn_inner threshold (nth_name nameList i_index) i_index js k st = Done st' →
  length (lcs_buf st') = MAX_LCS ∧
  ∀ j_index, k < j_index → i_index < j_index → j_index ≤ length nameList →
    hit threshold nameList (i_index, j_index) = true →
    reconstructible (name (nth_name nameList i_index))
                    (name (nth_name nameList j_index)).
Proof.
  revert k st. induction js as [|j js IH]; intros k st Hjs Hbuf.
  { intros [= <-]. split; [done|]. intros j_index Hk _ Hle.
    pose proof (f_equal length Hjs) as Hl.
    rewrite length_drop in Hl. simpl in Hl. lia. }
  symmetry in Hjs. apply drop_nth_name in Hjs as [Hj Hjs].
  cbn [pn_inner].
  destruct (pn_body _ _ _ _ _ _) as [st1|] eqn:Hbody; [|done].
  apply pn_body_done in Hbody as [Hbuf1 Hsafe1]; [|done].
  intros Hrest.
  apply IH in Hrest as [Hbuf' Hsafe']; [|done..].
  split; [done|]. intros j_index Hk Hij Hle Hhit.
  destruct (decide (j_index = S k)) as [->|Hne].
  - rewrite Hj. apply Hsafe1; [done|]. unfold hit in Hhit. simpl in Hhit.
    by rewrite Hj in Hhit.
  - apply Hsafe'; lia || done.
Qed.

Lemma pn_outer_done todo k st st' :
  todo = drop k nameList →
  length (lcs_buf st) = MAX_LCS →
  pn_outer threshold nameList todo k st = Done st' →
  ∀ i_index j_index, k < i_index → i_index < j_index →
    j_index ≤ length nameList →
    hit threshold nameList (i_index, j_index) = true →
    reconstructible (name (nth_name nameList i_index))
                    (name (nth_name nameList j_index)).
Proof.
  revert k st. induction todo as [|i todo IH]; intros k st Htodo Hbuf.
  { intros _ i_index j_index Hk Hij Hle.
    pose proof (f_equal length Htodo) as Hl.
    rewrite length_drop in Hl. simpl in Hl. lia. }
  symmetry in Htodo. apply drop_nth_name in Htodo as [Hi Htodo].
  cbn [pn_outer]. rewrite <-Hi.
  destruct (pn_inner _ _ _ _ _ _) as [st1|] eqn:Hinner; [|done].
  apply pn_inner_done in Hinner as [Hbuf1 Hsafe1]; [|done..].
  intros Hrest i_index j_index Hk Hij Hle Hhit.
  destruct (decide (i_index = S k)) as [->|Hne].
  - apply Hsafe1; lia || done.
  - eapply IH; [done|exact Hbuf1|exact Hrest|lia|done..].
Qed.

Lemma processNames_done_safe lcs st :
  length lcs = MAX_LCS →
  processNames lcs nameList threshold = Done st →
  safe_pairs threshold nameList.
Proof.
  intros Hlcs Hdone i_index j_index Hi Hij Hle Hhit.
  eapply (pn_outer_done nameList 0); [done| |exact Hdone|lia|done..].
  done.
Qed.

Lemma processNames_safe_done lcs :
  length lcs = MAX_LCS →
  safe_pairs threshold nameList →
  ∃ lcs', length lcs' = MAX_LCS ∧
    processNames lcs nameList threshold
    = Done {| results :=
                map (pick nameList)
                  (List.filter (hit threshold nameList)
                     (triangle (length nameList)));
              considered := triangle (length nameList);
              lcs_buf := lcs' |}.
Proof.
  intros Hlcs Hsafe.
  destruct (pn_outer_spec threshold nameList nameList 0
              {| results := []; considered := []; lcs_buf := lcs |})
    as (lcs' & Hlcs' & H); [done..|].
  exists lcs'. split; [done|]. unfold processNames. by rewrite H.
Qed.

End Completion.



(** X13.  The content of the static buffer does not influence the
    output: a run that ends can be repeated on the buffer it leaves
    behind, and on any other, with the same matches in the same order. *)
Theorem processNames_again (lcs lcs2 : list ascii)
    (nameList : list NameStructure) (threshold : fval) (st : pn_state) :
  length lcs = MAX_LCS → length lcs2 = MAX_LCS →
  processNames lcs nameList threshold = Done st →
  length (lcs_buf st) = MAX_LCS ∧
  (∃ st', processNames (lcs_buf st) nameList threshold = Done st' ∧
          results st' = results st ∧ considered st' = considered st) ∧
  (∃ st', processNames lcs2 nameList threshold = Done st' ∧
          results st' = results st ∧ considered st' = considered st).
Proof.
  intros Hlcs Hlcs2 Hdone.
  pose proof (processNames_done_safe _ _ _ _ Hlcs Hdone) as Hsafe.
  destruct (processNames_safe_done threshold nameList lcs Hlcs Hsafe)
    as (lcs' & Hlcs' & H).
  rewrite H in Hdone. injection Hdone as <-. simpl.
  split; [done|]. split.
  - destruct (processNames_safe_done threshold nameList lcs' Hlcs' Hsafe)
      as (lcs'' & _ & ->).
    by eexists.
  - destruct (processNames_safe_done threshold nameList lcs2 Hlcs2 Hsafe)
      as (lcs'' & _ & ->).
    by eexists.
Qed.

Lemma processNames_again_witness :
  length lcs_initial = MAX_LCS ∧
  ∃ st, processNames lcs_initial count_scope similarity_threshold = Done st ∧
    ∃ st', processNames (lcs_buf st) count_scope similarity_threshold = Done st' ∧
           results st' = results st.
Proof.
  assert (length lcs_initial = MAX_LCS) as H by reflexivity.
  split; [exact H|].
  eexists. split; [vm_compute; reflexivity|].
  destruct (processNames_again lcs_initial lcs_initial count_scope
              similarity_threshold _ H H ltac:(vm_compute; reflexivity))
    as (_ & (st' & H1 & H2 & _) & _).
  exists st'. split; [exact H1|exact H2].
Defined.

(** X14.  Two entries with the same non-empty name (a redeclaration, or
    a name reused in a nested scope) are reported as a match whenever
    the run ends and the threshold is below 1.0. *)
Theorem processNames_reports_duplicates (lcs : list ascii)
    (nameList : list NameStructure) (threshold : fval) (st : pn_state)
    (i_index j_index : nat) :
  length lcs = MAX_LCS →
  processNames lcs nameList threshold = Done st →
  1 ≤ i_index → i_index < j_index → j_index ≤ length nameList →
  name (nth_name nameList i_index) = name (nth_name nameList j_index) →
  name (nth_name nameList i_index) ≠ [] →
  flt threshold f1 = true →
  In (nth_name nameList i_index, nth_name nameList j_index) (results st).
Proof.
  intros Hlcs Hdone Hi Hij Hj Hname Hne Hthr.
  pose proof (processNames_done_safe _ _ _ _ Hlcs Hdone) as Hsafe.
  destruct (processNames_safe_done threshold nameList lcs Hlcs Hsafe)
    as (lcs' & _ & H).
  rewrite H in Hdone. injection Hdone as <-. simpl.
  apply in_map_iff. exists (i_index, j_index). split; [done|].
  apply filter_In. split.
  - apply elem_of_triangle. simpl. lia.
  - unfold hit, matching. simpl.
    rewrite <-Hname, similarityMetric_ratio_self by done. done.
Qed.

Lemma processNames_reports_duplicates_witness :
  length lcs_initial = MAX_LCS ∧
  name (nth_name shadow_scope 1) = name (nth_name shadow_scope 3) ∧
  flt similarity_threshold f1 = true ∧
  ∃ st,
    processNames lcs_initial shadow_scope similarity_threshold = Done st ∧
    In (nth_name shadow_scope 1, nth_name shadow_scope 3) (results st).
Proof.
  assert (length lcs_initial = MAX_LCS) as H1 by reflexivity.
  assert (name (nth_name shadow_scope 1) = name (nth_name shadow_scope 3))
    as H2 by reflexivity.
  assert (flt similarity_threshold f1 = true) as H3 by reflexivity.
  do 3 (split; [assumption|]).
  eexists. split; [vm_compute; reflexivity|].
  refine (processNames_reports_duplicates lcs_initial shadow_scope
            similarity_threshold _ 1 3 H1 _ _ _ _ H2 _ H3).
  - vm_compute; reflexivity.
  - lia.
  - lia.
  - simpl; lia.
  - discriminate.
Defined.

(** X15.  With names shorter than 256 characters and a threshold that
    is not negative, [processNames] always runs to its end, and no
    reported pair contains an empty name (an unnamed parameter or
    namespace never matches anything). *)
Theorem processNames_short_names (lcs : list ascii)
    (nameList : list NameStructure) (threshold : fval) :
  length lcs = MAX_LCS →
  Forall (λ x, length (name x) < MAX_LCS) nameList →
  flt threshold f0 = false →
  ∃ st, processNames lcs nameList threshold = Done st ∧
        ∀ x y, In (x, y) (results st) →
               name x ≠ [] ∧ name y ≠ [] ∧ matching threshold x y = true.
Proof.
  intros Hlcs Hshort Hthr.
  pose proof (safe_pairs_short threshold nameList Hshort Hthr) as Hsafe.
  destruct (processNames_safe_done threshold nameList lcs Hlcs Hsafe)
    as (lcs' & _ & H).
  eexists. split; [exact H|]. simpl.
  intros x y ([i j] & [= <- <-] & [Hin Hhit]%filter_In)%in_map_iff.
  apply elem_of_triangle in Hin. simpl in Hin.
  destruct (Hsafe i j) as (Hx & Hy & _); [lia..|done|].
  done.
Qed.

Lemma processNames_short_names_witness :
  length lcs_initial = MAX_LCS ∧
  Forall (λ x, length (name x) < MAX_LCS) count_scope ∧
  flt similarity_threshold f0 = false ∧
  ∃ st, processNames lcs_initial count_scope similarity_threshold = Done st.
Proof.
  assert (length lcs_initial = MAX_LCS) as H1 by reflexivity.
  assert (Forall (λ x, length (name x) < MAX_LCS) count_scope) as H2.
  { unfold MAX_LCS. repeat constructor; simpl; lia. }
  assert (flt similarity_threshold f0 = false) as H3 by reflexivity.
  do 3 (split; [assumption|]).
  destruct (processNames_short_names _ _ _ H1 H2 H3) as (st & H & _).
  exists st. exact H.
Defined.

Section Visits.

Lemma nth_name_middle (l1 l2 : list NameStructure) x :
  nth_name (l1 ++ x :: l2) (S (length l1)) = x.
Proof.
  unfold nth_name. replace (S (length l1) - 1) with (length l1) by lia.
  by apply list_lookup_total_middle.
Qed.

Lemma before_in_indices (l : list NameStructure) x y :
  before_in l x y ↔
  ∃ i j, 1 ≤ i ∧ i < j ∧ j ≤ length l ∧ nth_name l i = x ∧ nth_name l j = y.
Proof.
  split.
  - intros (l1 & l2 & l3 & ->).
    exists (S (length l1)), (S (length (l1 ++ x :: l2))).
    repeat split.
    + lia.
    + rewrite length_app. simpl. lia.
    + rewrite !length_app. simpl. rewrite length_app. simpl. lia.
    + apply nth_name_middle.
    + replace (l1 ++ x :: l2 ++ y :: l3) with ((l1 ++ x :: l2) ++ y :: l3)
        by (by rewrite <-app_assoc).
      apply nth_name_middle.
  - intros (i & j & Hi & Hij & Hj & <- & <-).
    unfold nth_name.
    destruct (lookup_lt_is_Some_2 l (i - 1)) as [x Hx]; [lia|].
    destruct (lookup_lt_is_Some_2 l (j - 1)) as [y Hy]; [lia|].
    rewrite (list_lookup_total_correct _ _ _ Hx).
    rewrite (list_lookup_total_correct _ _ _ Hy).
    exists (take (i - 1) l), (take (j - 1 - i) (drop i l)), (drop j l).
    rewrite <-(take_drop (i - 1) l) at 1. f_equal.
    rewrite (drop_S _ _ _ Hx). replace (S (i - 1)) with i by lia. f_equal.
    rewrite <-(take_drop (j - 1 - i) (drop i l)) at 1. f_equal.
    rewrite drop_drop. replace (i + (j - 1 - i)) with (j - 1) by lia.
    rewrite (drop_S _ _ _ Hy). by replace (S (j - 1)) with j by lia.
Qed.

(** The matches of a run that ends, by elements: the pairs [x] before
    [y] that score above the threshold. *)
Lemma processNames_results_before lcs nameList threshold st :
  length lcs = MAX_LCS →
  processNames lcs nameList threshold = Done st →
  length (lcs_buf st) = MAX_LCS ∧
  ∀ x y, In (x, y) (results st) ↔
         before_in nameList x y ∧ matching threshold x y = true.
Proof.
  intros Hlcs Hdone.
  pose proof (processNames_done_safe _ _ _ _ Hlcs Hdone) as Hsafe.
  destruct (processNames_safe_done threshold nameList lcs Hlcs Hsafe)
    as (lcs' & Hlcs' & H).
  rewrite H in Hdone. injection Hdone as <-. simpl. split; [done|].
  intros x y. rewrite before_in_indices, in_map_iff. split.
  - intros ([i j] & [= <- <-] & [Hin Hhit]%filter_In).
    apply elem_of_triangle in Hin. simpl in Hin.
    split; [|done]. exists i, j. repeat split; lia || done.
  - intros [(i & j & Hi & Hij & Hj & <- & <-) Hm].
    exists (i, j). split; [done|]. apply filter_In. split; [|done].
    apply elem_of_triangle. simpl. lia.
Qed.

Lemma push_named_prefix found n (l : list NameStructure) :
  l `prefix_of` push_named found n l ∧
  length (push_named found n l) ≤ S (length l) ∧
  (n ≠ 0%N → Forall (λ x, associatedNode x ≠ 0%N) l →
   Forall (λ x, associatedNode x ≠ 0%N) (push_named found n l)).
Proof.
  destruct found as [s|]; simpl.
  - split; [by apply prefix_app_r|]. split; [rewrite length_app; simpl; lia|].
    intros Hn Hl. apply Forall_app. split; [done|]. by repeat constructor.
  - repeat split; done || lia.
Qed.

Lemma cast_name_null view ast : cast_name view ast 0%N = None.
Proof. done. Qed.

End Visits.



(** X17.  Scopes nest: when the name list a scope statement hands
    upwards is among the children's lists of an enclosing scope
    statement, every name of the inner scope is in the outer one's list,
    and every match reported at the inner scope is reported again at the
    outer scope. *)
Theorem evaluateSynthesizedAttribute_nested (ast : N → SgNode)
    (threshold : fval) (lcs lcs2 : list ascii) (inner outer : N)
    (kids : list (list NameStructure))
    (siblings_before siblings_after : list (list NameStructure))
    (v1 v2 : visit) :
  inner ≠ 0%N → isSgScopeStatement (ast inner) = true →
  outer ≠ 0%N → isSgScopeStatement (ast outer) = true →
  length lcs = MAX_LCS → length lcs2 = MAX_LCS →
  evaluateSynthesizedAttribute ast threshold lcs inner kids = Done v1 →
  evaluateSynthesizedAttribute ast threshold lcs2 outer
    (siblings_before ++ nameList_of v1 :: siblings_after) = Done v2 →
  (∀ x, In x (concat kids) → In x (nameList_of v2)) ∧
  (∀ p, In p (reported v1) → In p (reported v2)).
Proof.
  intros Hi Hsi Ho Hso Hlcs Hlcs2. unfold evaluateSynthesizedAttribute.
  destruct (N.eqb_spec inner 0); [done|].
  destruct (N.eqb_spec outer 0); [done|]. rewrite Hsi, Hso. simpl.
  destruct (processNames lcs _ _) as [st1|] eqn:Hrun1; [|done].
  intros [= <-]. simpl.
  destruct (processNames lcs2 _ _) as [st2|] eqn:Hrun2; [|done].
  intros [= <-]. simpl.
  rewrite concat_app, concat_cons in *.
  destruct (processNames_results_before _ _ _ _ Hlcs Hrun1) as [_ Hres1].
  destruct (processNames_results_before _ _ _ _ Hlcs2 Hrun2) as [_ Hres2].
  split.
  - intros x Hx. apply in_or_app. right. apply in_or_app. by left.
  - intros [x y] [(l1 & l2 & l3 & E) Hm]%Hres1. apply Hres2.
    split; [|done]. rewrite E.
    exists (concat siblings_before ++ l1), l2, (l3 ++ concat siblings_after).
    rewrite <-!app_assoc. simpl. by rewrite <-!app_assoc.
Qed.

Lemma evaluateSynthesizedAttribute_nested_witness :
  ∃ v1 v2,
    evaluateSynthesizedAttribute sample_ast similarity_threshold
      lcs_initial 10 sample_children = Done v1 ∧
    evaluateSynthesizedAttribute sample_ast similarity_threshold
      (buffer_of v1) 11 ([] ++ nameList_of v1 :: [shadow_scope]) = Done v2 ∧
    ∀ p, In p (reported v1) → In p (reported v2).
Proof.
  destruct (evaluateSynthesizedAttribute sample_ast similarity_threshold
              lcs_initial 10 sample_children) as [v1|w] eqn:E1;
    [|vm_compute in E1; discriminate].
  assert (length (buffer_of v1) = MAX_LCS) as Hbuf.
  { vm_compute in E1. injection E1 as <-. reflexivity. }
  destruct (evaluateSynthesizedAttribute sample_ast similarity_threshold
              (buffer_of v1) 11 ([] ++ nameList_of v1 :: [shadow_scope]))
    as [v2|w] eqn:E2.
  2:{ vm_compute in E1. injection E1 as <-. vm_compute in E2. discriminate. }
  exists v1, v2. split; [reflexivity|]. split; [exact E2|].
  assert (10%N ≠ 0%N) as H1 by discriminate.
  assert (11%N ≠ 0%N) as H2 by discriminate.
  exact (proj2 (evaluateSynthesizedAttribute_nested sample_ast
                  similarity_threshold lcs_initial (buffer_of v1) 10 11
                  sample_children [] [shadow_scope] v1 v2
                  H1 eq_refl H2 eq_refl eq_refl Hbuf E1 E2)).
Defined.

(** X18.  Whatever the node, [evaluateSynthesizedAttribute] never drops
    or reorders a child's names (their concatenation is a prefix of the
    list handed upwards) and appends at most three entries; a node that
    is not a scope statement runs no matching and leaves the static
    buffer alone; and no entry ever carries a null node when the
    children's entries carry none, so the constructor's assertion
    cannot fail. *)
Theorem evaluateSynthesizedAttribute_names (ast : N → SgNode)
    (threshold : fval) (lcs : list ascii) (astNode : N)
    (childAttributes : list (list NameStructure)) (v : visit) :
  evaluateSynthesizedAttribute ast threshold lcs astNode childAttributes
  = Done v →
  concat childAttributes `prefix_of` nameList_of v ∧
  length (nameList_of v) ≤ length (concat childAttributes) + 3 ∧
  (Forall (Forall (λ x, associatedNode x ≠ 0%N)) childAttributes →
   Forall (λ x, associatedNode x ≠ 0%N) (nameList_of v)) ∧
  (isSgScopeStatement (ast astNode) = false →
   reported v = [] ∧ buffer_of v = lcs).
Proof.
  unfold evaluateSynthesizedAttribute.
  destruct (negb (astNode =? 0)%N && isSgScopeStatement (ast astNode))
    eqn:Hscope.
  - destruct (processNames _ _ _) as [st|]; [|done].
    intros [= <-]. simpl.
    split; [done|]. split; [lia|]. split.
    + intros H. by apply Forall_concat.
    + intros E. rewrite E, andb_false_r in Hscope. done.
  - intros [= <-]. simpl. unfold processNode.
    set (l0 := concat childAttributes).
    set (l1 := push_named (cast_name isSgFunctionDeclaration ast astNode) astNode l0).
    set (l2 := push_named (cast_name isSgInitializedName ast astNode) astNode l1).
    destruct (push_named_prefix (cast_name isSgFunctionDeclaration ast astNode)
                astNode l0) as (P1 & L1 & N1).
    destruct (push_named_prefix (cast_name isSgInitializedName ast astNode)
                astNode l1) as (P2 & L2 & N2).
    destruct (push_named_prefix
                (cast_name isSgNamespaceDeclarationStatement ast astNode)
                astNode l2) as (P3 & L3 & N3).
    fold l1 in P1, L1, N1, P2, L2, N2. fold l2 in P2, L2, N2, P3, L3, N3.
    split; [|split; [|split; [|done]]].
    + etrans; [exact P1|]. etrans; [exact P2|]. exact P3.
    + lia.
    + intros H. apply Forall_concat in H. fold l0 in H.
      destruct (N.eqb_spec astNode 0) as [->|Hn].
      * unfold l2, l1. by rewrite !cast_name_null.
      * auto.
Qed.

Lemma evaluateSynthesizedAttribute_names_witness :
  ∃ v, evaluateSynthesizedAttribute sample_ast similarity_threshold
         lcs_initial 1 [] = Done v ∧
       nameList_of v = [ {| name := cstr "count"; associatedNode := 1%N |} ] ∧
       concat [] `prefix_of` nameList_of v.
Proof.
  eexists. split; [reflexivity|]. split; [reflexivity|].
  exact (proj1 (evaluateSynthesizedAttribute_names sample_ast
                  similarity_threshold lcs_initial 1 [] _ eq_refl)).
Defined.

Section Bounds.

Lemma for_each_ok {S : Type} (I : S → Prop) (body : S → nat → option S)
    (f : S → nat → S) (ks : list nat) (s : S) :
  I s →
  (∀ s k, I s → In k ks → body s k = Some (f s k) ∧ I (f s k)) →
  for_each body s ks = Some (foldl f s ks) ∧ I (foldl f s ks).
Proof.
  revert s. induction ks as [|k ks IH]; intros s Hs Hbody; [done|].
  destruct (Hbody s k Hs (or_introl eq_refl)) as [E Hs'].
  unfold for_each in *. simpl. rewrite E. apply IH; [done|].
  intros s' k' ? ?. apply Hbody; [done|by right].
Qed.

Lemma rd_ok a k : k < length a → rd a k = Some (a !!! k).
Proof. intros H. by apply list_lookup_lookup_total_lt. Qed.

Lemma wr_ok a k v : k < length a → wr a k v = Some (<[k := v]> a).
Proof. intros H. unfold wr. by destruct (Nat.ltb_spec k (length a)); [|lia]. Qed.

Lemma chr_ok (str : cstring) k : k ≤ length str → chr str k = Some (str !!! k).
Proof.
  intros H. unfold chr. by destruct (Nat.leb_spec k (length str)); [|lia].
Qed.

Lemma tget_checked_ok align r c :
  r < length align → c < length (align !!! r) →
  tget_checked align r c = Some (tget align r c).
Proof.
  intros Hr Hc. unfold tget_checked, tget.
  rewrite (list_lookup_lookup_total_lt align r) by done. simpl.
  by apply list_lookup_lookup_total_lt.
Qed.

Lemma tset_checked_ok align r c v :
  r < length align → c < length (align !!! r) →
  tset_checked align r c v = Some (tset align r c v).
Proof.
  intros Hr Hc. unfold tset_checked, tset.
  rewrite (list_lookup_lookup_total_lt align r) by done. simpl.
  by destruct (Nat.ltb_spec c (length (align !!! r))); [|lia].
Qed.

Variables str1 str2 : cstring.

Lemma sim_step_checked_ok j previous next k :
  length previous = length str1 + 1 → length next = length str1 + 1 →
  1 ≤ k → k ≤ length str1 → j ≤ length str2 →
  sim_step_checked str1 str2 j previous next k
  = Some (<[k := lcs_cell (str1 !!! (k - 1)) (str2 !!! j)
                   (previous !!! (k - 1)) (previous !!! k)
                   (next !!! (k - 1))]> next).
Proof.
  intros Hp Hn Hk1 Hk Hj. unfold sim_step_checked, lcs_cell.
  rewrite !chr_ok by lia. simpl.
  destruct (Ascii.eqb _ _).
  - rewrite rd_ok by lia. simpl. apply wr_ok. lia.
  - rewrite !rd_ok by lia. simpl. apply wr_ok. lia.
Qed.

Lemma sim_inner_checked_ok j n previous next :
  length previous = length str1 + 1 → length next = length str1 + 1 →
  n ≤ length str1 → j ≤ length str2 →
  sim_inner_checked str1 str2 n j previous next
  = Some (sim_inner str1 str2 n j previous next) ∧
  length (sim_inner str1 str2 n j previous next) = length str1 + 1.
Proof.
  intros Hp Hn Hlen Hj. unfold sim_inner_checked, sim_inner.
  apply (for_each_ok (λ next, length next = length str1 + 1)); [done|].
  intros next' k Hn' [Hk1 Hk]%in_seq.
  rewrite sim_step_checked_ok by (done || lia).
  split; [done|]. by rewrite length_insert.
Qed.

Lemma sim_outer_checked_ok n previous next :
  length previous = length str1 + 1 → length next = length str1 + 1 →
  n ≤ length str2 →
  sim_outer_checked str1 str2 (length str1) n previous next
  = Some (sim_outer str1 str2 (length str1) n previous next) ∧
  length (sim_outer str1 str2 (length str1) n previous next).1
  = length str1 + 1.
Proof.
  intros Hp Hn Hlen. unfold sim_outer_checked, sim_outer.
  destruct (for_each_ok
    (λ rows : list nat * list nat,
       length rows.1 = length str1 + 1 ∧ length rows.2 = length str1 + 1)
    (λ '(previous, next) j,
       next' ← sim_inner_checked str1 str2 (length str1) j previous next;
       Some (next', previous))
    (λ '(previous, next) j,
       (sim_inner str1 str2 (length str1) j previous next, previous))
    (seq 0 n) (previous, next)) as [E [H1 _]]; [done| |done].
  intros [p q] j [Hp' Hq'] [_ Hj]%in_seq. simpl in *.
  destruct (sim_inner_checked_ok j (length str1) p q) as [-> Hl];
    [done|done|done|lia|].
  done.
Qed.

Lemma fill_step_checked_ok r align c :
  table_shape str1 str2 align →
  1 ≤ r → r ≤ length str2 → 1 ≤ c → c ≤ length str1 →
  fill_step_checked str1 str2 r align c
  = Some (tset align r c
            (lcs_cell (str1 !!! (c - 1)) (str2 !!! (r - 1))
               (tget align (r - 1) (c - 1)) (tget align (r - 1) c)
               (tget align r (c - 1)))) ∧
  table_shape str1 str2 (tset align r c
            (lcs_cell (str1 !!! (c - 1)) (str2 !!! (r - 1))
               (tget align (r - 1) (c - 1)) (tget align (r - 1) c)
               (tget align r (c - 1)))).
Proof.
  intros [Hlen Hrows] Hr1 Hr Hc1 Hc. split.
  - unfold fill_step_checked, lcs_cell.
    rewrite !chr_ok by lia. simpl.
    destruct (Ascii.eqb _ _).
    + rewrite tget_checked_ok by (rewrite ?Hrows; lia). simpl.
      apply tset_checked_ok; rewrite ?Hrows; lia.
    + rewrite !tget_checked_ok by (rewrite ?Hrows; lia). simpl.
      apply tset_checked_ok; rewrite ?Hrows; lia.
  - split; [by rewrite length_tset|].
    intros r' Hr'. rewrite length_tset_row. by apply Hrows.
Qed.

Lemma fill_table_checked_ok n align :
  table_shape str1 str2 align → n ≤ length str2 →
  fill_table_checked str1 str2 (length str1) n align
  = Some (fill_table str1 str2 (length str1) n align) ∧
  table_shape str1 str2 (fill_table str1 str2 (length str1) n align).
Proof.
  intros Hshape Hn. unfold fill_table_checked, fill_table.
  apply (for_each_ok (table_shape str1 str2)); [done|].
  intros align' r Hshape' [Hr1 Hr]%in_seq. unfold fill_row.
  apply (for_each_ok (table_shape str1 str2)); [done|].
  intros align'' c Hshape'' [Hc1 Hc]%in_seq.
  apply fill_step_checked_ok; lia || done.
Qed.

Lemma table_shape_calloc :
  table_shape str1 str2 (replicate (length str2 + 1) (replicate (length str1 + 1) 0)).
Proof.
  split; [apply length_replicate|]. intros r Hr.
  rewrite lookup_total_replicate_2 by lia. apply length_replicate.
Qed.

Lemma table_shape_align_table : table_shape str1 str2 (align_table str1 str2).
Proof.
  unfold align_table.
  by destruct (fill_table_checked_ok (length str2)
                 (replicate (length str2 + 1) (replicate (length str1 + 1) 0))
                 table_shape_calloc).
Qed.

Lemma lcs_iter_checked_ok s :
  cursor_ok str1 str2 (align_table str1 str2) s → lcs_cond s = true →
  lcs_iter_checked str2 (align_table str1 str2) s
  = Some (lcs_branch (align_table str1 str2) s,
          lcs_next (align_table str1 str2)
            (lcs_branch (align_table str1 str2) s) s).
Proof.
  destruct table_shape_align_table as [Hlen Hrows].
  destruct s as [r c i]. intros (Hr & Hc & _) Hcond. simpl in Hr, Hc.
  unfold lcs_cond in Hcond. simpl in Hcond.
  destruct r as [|r]; [by rewrite andb_false_r in Hcond|].
  destruct c as [|c]; [by rewrite andb_false_r in Hcond|].
  unfold lcs_iter_checked, lcs_branch, lcs_next.
  replace (S r - 1) with r by lia. replace (S c - 1) with c by lia.
  rewrite !(tget_checked_ok _ r (S c)) by (rewrite ?Hrows; lia).
  rewrite !(tget_checked_ok _ (S r) c) by (rewrite ?Hrows; lia).
  rewrite !(tget_checked_ok _ r c) by (rewrite ?Hrows; lia).
  rewrite !(tget_checked_ok _ (S r) (S c)) by (rewrite ?Hrows; lia).
  rewrite chr_ok by lia.
  cbn [mbind option_bind].
  destruct (_ =? i); [done|].
  destruct (_ =? i); [done|].
  by destruct (_ =? i - 1).
Qed.

Lemma lcs_loop_checked_ok fuel s :
  cursor_ok str1 str2 (align_table str1 str2) s →
  lcs_loop_checked fuel str2 (align_table str1 str2) s
  = Some (lcs_loop fuel (align_table str1 str2) s).
Proof.
  revert s. induction fuel as [|fuel IH]; intros s Hok; simpl.
  { by destruct (lcs_cond s). }
  destruct (lcs_cond s) eqn:Hcond; [|done].
  rewrite lcs_iter_checked_ok by done. simpl.
  rewrite IH by (by apply cursor_ok_next). done.
Qed.

End Bounds.

(** X19.  [similarityMetric] stays inside its arrays: every subscript
    of [previous] and [next] is within the [len1 + 1] cells allocated,
    every subscript of the strings within the string and its
    terminator; with all accesses checked it returns the same value. *)
Theorem similarityMetric_in_bounds (strX strY : cstring) :
  similarityMetric_checked strX strY = Some (similarityMetric strX strY).
Proof.
  unfold similarityMetric_checked, similarityMetric.
  set (str1 := if length strY <? length strX then strX else strY).
  set (str2 := if length strY <? length strX then strY else strX).
  destruct (_ || _); [done|].
  destruct (sim_outer_checked_ok str1 str2 (length str2)
              (replicate (length str1 + 1) 0) (replicate (length str1 + 1) 0))
    as [-> Hl]; [by rewrite length_replicate..|done|].
  simpl. rewrite rd_ok by lia. done.
Qed.

(** X20.  The table construction and the reconstruction loop of
    [longestCommonSubstring] stay inside the table and the strings:
    with every subscript of [align], [str1] and [str2] checked, the
    construction yields the same table and the loop, from the cursor the
    [for] statement starts with, the same iterations, whatever the fuel.
    (The stores into [lcs] are the ones that can leave their array.) *)
Theorem longestCommonSubstring_table_in_bounds (str1 str2 : cstring)
    (fuel : nat) :
  fill_table_checked str1 str2 (length str1) (length str2)
    (replicate (length str2 + 1) (replicate (length str1 + 1) 0))
  = Some (align_table str1 str2) ∧
  lcs_loop_checked fuel str2 (align_table str1 str2)
    (Cursor (length str2) (length str1)
       (tget (align_table str1 str2) (length str2) (length str1)))
  = Some (lcs_loop fuel (align_table str1 str2)
            (Cursor (length str2) (length str1)
               (tget (align_table str1 str2) (length str2) (length str1)))).
Proof.
  split.
  - by destruct (fill_table_checked_ok str1 str2 (length str2)
                   (replicate (length str2 + 1) (replicate (length str1 + 1) 0))
                   (table_shape_calloc str1 str2)).
  - apply lcs_loop_checked_ok, cursor_ok_start.
Qed.

Section Order.





End Order.


